(** * create-mcp-server: a model of [bin/create-mcp-server.js]

    The script scaffolds a new project: it checks that the working directory
    is empty, asks for a project name, mirrors the bundled [src] tree into
    the working directory, writes a [package.json] and a [README.md], and
    finally tries to install and build with bun or npm.

    The model is a shallow embedding.  The file system is one finite map
    from paths to nodes, shared by every operation; the console, the prompt
    and the subprocess calls are recorded as a trace of events; JavaScript
    exceptions and [process.exit] are outcomes of a small state monad. *)

From Stdlib Require Import String Ascii List ZArith Lia.
From stdpp Require Import base option list strings gmap fin_maps.
Import ListNotations.

Open Scope string_scope.
Open Scope list_scope.

(** ** Strings

    A JavaScript string is modelled by its UTF-8 encoding, a [string] of
    bytes: this is what Node writes to files and to the terminal. *)

Definition chr (code : nat) : string := String (ascii_of_nat code) EmptyString.

Definition nl : string := chr 10.
Definition dq : string := chr 34.
Definition sq : string := chr 39.
Definition backslash : string := chr 92.
Definition backtick : string := chr 96.
Definition esc : string := chr 27.

(** [lines.join('\n')] for a template literal written line by line. *)
Fixpoint unlines (ls : list string) : string :=
  match ls with
  | [] => ""
  | [l] => l
  | l :: ls' => l +:+ nl +:+ unlines ls'
  end.

(** A string is truthy in JavaScript when it is not empty; [a || b]. *)
Definition truthy (s : string) : bool :=
  match s with EmptyString => false | String _ _ => true end.

Definition js_or (a b : string) : string := if truthy a then a else b.

(** ** Paths

    An absolute path is the list of its components, the root being [[]].
    Every [path.join(dir, name)] of the script appends one plain entry
    name, so it is [dir ++ [name]]. *)

Abbreviation path := (list string).

Definition path_join (dir : path) (entry : string) : path := dir ++ [entry].

(** [path.basename]: the last component, and the empty string for the
    root ([path.basename('/')] is ['']). *)
Fixpoint basename (p : path) : string :=
  match p with
  | [] => ""
  | [c] => c
  | _ :: p' => basename p'
  end.

Definition dirname (p : path) : path := removelast p.

(** The text of a path, as a template literal interpolates it. *)
Definition path_text (p : path) : string :=
  match p with
  | [] => "/"
  | _ => String.concat "" (map (fun c => "/" +:+ c) p)
  end.

(** [relative_to dir p] is [Some r] exactly when [p = dir ++ r]. *)
Fixpoint relative_to (dir p : path) : option path :=
  match dir, p with
  | [], _ => Some p
  | _ :: _, [] => None
  | a :: dir', b :: p' => if String.eqb a b then relative_to dir' p' else None
  end.

(** ** The file system *)

(** Regular files and directories; links and special files are not
    modelled. *)
Inductive node :=
| File (data : list Byte.byte)
| Dir.

Abbreviation filesystem := (gmap path node).

(** What [fs.readdirSync(dir, { withFileTypes: true })] yields for one
    entry: the script reads [entry.name] and [entry.isDirectory()]. *)
Record Dirent := { name : string; isDirectory : bool }.

Definition is_dir (x : node) : bool :=
  match x with Dir => true | File _ => false end.

Definition child_of (dir : path) (kv : path * node) : option Dirent :=
  match relative_to dir kv.1 with
  | Some [n] => Some {| name := n; isDirectory := is_dir kv.2 |}
  | _ => None
  end.

(** The entries of a directory, in the order of the map's enumeration
    (the order Node returns is the operating system's; no statement below
    depends on it). *)
Definition children (fs : filesystem) (dir : path) : list Dirent :=
  omap (child_of dir) (map_to_list fs).

(** ** Outcomes, worlds and the monad *)

(** A thrown [Error]; the script only ever reads [error.message]. *)
Inductive error := Error (message : string).

Definition message (e : error) : string :=
  match e with Error m => m end.

Inductive event :=
| Log (line : string)                    (* console.log *)
| Question (query : string)              (* rl.question *)
| Spawn (command : string) (ok : bool)   (* execSync, and whether it exited with 0 *)
| Close.                                 (* rl.close *)

Record world := { files : filesystem; trace : list event }.

(** [Exit] is [process.exit(code)]: no [catch] intercepts it.  [OutOfFuel]
    marks a recursion deeper than the fuel it was given. *)
Inductive outcome (A : Type) :=
| Return (a : A)
| Throw (e : error)
| Exit (code : Z)
| OutOfFuel.

Arguments Return {A} a.
Arguments Throw {A} e.
Arguments Exit {A} code.
Arguments OutOfFuel {A}.

Definition M (A : Type) : Type := world → outcome A * world.

Definition ret {A} (a : A) : M A := fun w => (Return a, w).

Definition bind {A B} (m : M A) (k : A → M B) : M B :=
  fun w =>
    match m w with
    | (Return a, w') => k a w'
    | (Throw e, w') => (Throw e, w')
    | (Exit c, w') => (Exit c, w')
    | (OutOfFuel, w') => (OutOfFuel, w')
    end.

Declare Scope js_scope.
Delimit Scope js_scope with js.
Bind Scope js_scope with M.

Notation "x <- m ;; k" := (bind m (fun x => k))
  (at level 100, m at next level, right associativity) : js_scope.
Notation "m ;; k" := (bind m (fun _ => k))
  (at level 100, right associativity) : js_scope.

Open Scope js_scope.

Definition throw {A} (e : error) : M A := fun w => (Throw e, w).

Definition process_exit {A} (code : Z) : M A := fun w => (Exit code, w).

Definition out_of_fuel {A} : M A := fun w => (OutOfFuel, w).

(** [try { body } catch (error) { handler }]. *)
Definition try_catch {A} (body : M A) (handler : error → M A) : M A :=
  fun w =>
    match body w with
    | (Throw e, w') => handler e w'
    | r => r
    end.

(** [if (cond) { body }]. *)
Definition when (cond : bool) (body : M unit) : M unit :=
  if cond then body else ret tt.

(** [for (const x of l) { body }]. *)
Fixpoint forEach {A} (l : list A) (body : A → M unit) : M unit :=
  match l with
  | [] => ret tt
  | x :: l' => body x ;; forEach l' body
  end.

Definition emit (e : event) : M unit :=
  fun w => (Return tt, {| files := files w; trace := trace w ++ [e] |}).

Definition console_log (line : string) : M unit := emit (Log line).

Definition get_files : M filesystem := fun w => (Return (files w), w).

Definition put_files (fs : filesystem) : M unit :=
  fun w => (Return tt, {| files := fs; trace := trace w |}).

(** ** Node's [fs] module *)

Definition existsSync (p : path) : M bool :=
  fs <- get_files ;;
  ret (bool_decide (is_Some (fs !! p))).

(** [mkdir -p]: walks down from [base] through [rest], creating what is
    missing; a regular file on the way is an error. *)
Fixpoint mkdirp (fs : filesystem) (base rest : path) : option filesystem :=
  match fs !! base with
  | Some (File _) => None
  | _ =>
      let fs1 := <[base := Dir]> fs in
      match rest with
      | [] => Some fs1
      | c :: rest' => mkdirp fs1 (base ++ [c]) rest'
      end
  end.

(** [fs.mkdirSync(p, { recursive: true })]. *)
Definition mkdirSync_recursive (p : path) : M unit :=
  fs <- get_files ;;
  match mkdirp fs [] p with
  | Some fs' => put_files fs'
  | None => throw (Error ("ENOTDIR: not a directory, mkdir " +:+ path_text p))
  end.

(** [fs.readdirSync(dir, { withFileTypes: true })]. *)
Definition readdirSync_withFileTypes (dir : path) : M (list Dirent) :=
  fs <- get_files ;;
  match fs !! dir with
  | Some Dir => ret (children fs dir)
  | Some (File _) => throw (Error ("ENOTDIR: not a directory, scandir " +:+ path_text dir))
  | None => throw (Error ("ENOENT: no such file or directory, scandir " +:+ path_text dir))
  end.

(** [fs.readdirSync(dir)]: the names only. *)
Definition readdirSync (dir : path) : M (list string) :=
  entries <- readdirSync_withFileTypes dir ;;
  ret (map name entries).

(** Writing [data] at [p], as [copyFileSync] and [writeFileSync] do: the
    parent must be a directory and [p] itself must not be one; a file
    already there is overwritten. *)
Definition write_file (p : path) (data : list Byte.byte) : M unit :=
  fs <- get_files ;;
  match fs !! p with
  | Some Dir => throw (Error ("EISDIR: illegal operation on a directory, open " +:+ path_text p))
  | _ =>
      match fs !! dirname p with
      | Some Dir => put_files (<[p := File data]> fs)
      | Some (File _) => throw (Error ("ENOTDIR: not a directory, open " +:+ path_text p))
      | None => throw (Error ("ENOENT: no such file or directory, open " +:+ path_text p))
      end
  end.

(** [fs.copyFileSync(src, dest)]. *)
Definition copyFileSync (src dest : path) : M unit :=
  fs <- get_files ;;
  match fs !! src with
  | Some (File data) => write_file dest data
  | Some Dir => throw (Error ("EISDIR: illegal operation on a directory, copyfile " +:+ path_text src))
  | None => throw (Error ("ENOENT: no such file or directory, copyfile " +:+ path_text src))
  end.

(** [fs.writeFileSync(p, text)]. *)
Definition writeFileSync (p : path) (text : string) : M unit :=
  write_file p (list_byte_of_string text).

(** ** The exclusion test of [copyFiles]

    The chain of [===] comparisons the loop of [copyFiles] runs on
    [entry.name] before it looks at anything else. *)
Definition excluded (entry_name : string) : bool :=
  String.eqb entry_name "node_modules" ||
  String.eqb entry_name "package-lock.json" ||
  String.eqb entry_name "npm-debug.log" ||
  String.eqb entry_name "yarn.lock" ||
  String.eqb entry_name "pnpm-lock.yaml" ||
  String.eqb entry_name "bun.lock" ||
  String.eqb entry_name ".git" ||
  String.eqb entry_name "bin" ||
  String.eqb entry_name ".cursor" ||
  String.eqb entry_name "LICENSE" ||
  String.eqb entry_name "build".

(** ** [copyFiles]

    The recursion follows the directory tree found in the file system, so
    it is driven by fuel: one unit per level of nesting. *)
Fixpoint copyFiles (fuel : nat) (source destination : path) : M unit :=
  match fuel with
  | O => out_of_fuel
  | S fuel' =>
      present <- existsSync destination ;;
      when (negb present) (mkdirSync_recursive destination) ;;
      entries <- readdirSync_withFileTypes source ;;
      forEach entries (fun entry =>
        let srcPath := path_join source (name entry) in
        let destPath := path_join destination (name entry) in
        if excluded (name entry) then ret tt
        else if isDirectory entry then copyFiles fuel' srcPath destPath
        else
          copyFileSync srcPath destPath ;;
          console_log ("📄 Created " +:+ path_text destPath))
  end.

(** ** [String.prototype.trim]

    The white space and line terminators of ECMAScript, each by its UTF-8
    encoding. *)
Definition utf8 (bytes : list nat) : string :=
  string_of_list_ascii (map ascii_of_nat bytes).

Definition whitespace : list string :=
  [ chr 9; chr 10; chr 11; chr 12; chr 13; chr 32;          (* TAB LF VT FF CR SP *)
    utf8 [194; 160];                                        (* U+00A0 *)
    utf8 [225; 154; 128];                                   (* U+1680 *)
    utf8 [226; 128; 128]; utf8 [226; 128; 129];             (* U+2000 .. *)
    utf8 [226; 128; 130]; utf8 [226; 128; 131];
    utf8 [226; 128; 132]; utf8 [226; 128; 133];
    utf8 [226; 128; 134]; utf8 [226; 128; 135];
    utf8 [226; 128; 136]; utf8 [226; 128; 137];
    utf8 [226; 128; 138];                                   (* .. U+200A *)
    utf8 [226; 128; 168]; utf8 [226; 128; 169];             (* U+2028 U+2029 *)
    utf8 [226; 128; 175];                                   (* U+202F *)
    utf8 [226; 129; 159];                                   (* U+205F *)
    utf8 [227; 128; 128];                                   (* U+3000 *)
    utf8 [239; 187; 191] ].                                 (* U+FEFF *)

(** [after t s] is what follows [t] in [s] when [s] starts with [t]. *)
Fixpoint after (t s : string) : option string :=
  match t, s with
  | EmptyString, _ => Some s
  | String _ _, EmptyString => None
  | String a t', String b s' => if Ascii.eqb a b then after t' s' else None
  end.

Fixpoint first_after (tokens : list string) (s : string) : option string :=
  match tokens with
  | [] => None
  | t :: tokens' =>
      match after t s with
      | Some rest => Some rest
      | None => first_after tokens' s
      end
  end.

(** One leading white-space character removed, if there is one. *)
Definition skip_space (s : string) : option string := first_after whitespace s.

Fixpoint trimStart_loop (fuel : nat) (s : string) : string :=
  match fuel with
  | O => s
  | S fuel' =>
      match skip_space s with
      | Some rest => trimStart_loop fuel' rest
      | None => s
      end
  end.

Definition trimStart (s : string) : string := trimStart_loop (String.length s) s.

Definition whitespace_only (s : string) : bool := negb (truthy (trimStart s)).

(** [trimEnd] cuts the text at the first position from which only white
    space follows (a white-space character never starts inside another
    character of well-formed UTF-8). *)
Fixpoint trimEnd (s : string) : string :=
  match s with
  | EmptyString => EmptyString
  | String c s' => if whitespace_only s then EmptyString else String c (trimEnd s')
  end.

Definition trim (s : string) : string := trimEnd (trimStart s).

(** ** [JSON.stringify(value, null, 2)]

    Only the shapes the manifest uses: strings, booleans and objects whose
    keys keep the order they were written in. *)
#[warnings="-register-all"]
Inductive json :=
| JString (s : string)
| JBool (b : bool)
| JObject (members : list (string * json)).

Definition hex_digit (n : nat) : string :=
  chr (if Nat.ltb n 10 then 48 + n else 87 + n).

(** The escape of one byte inside a JSON string. *)
Definition escape (c : ascii) : string :=
  let n := nat_of_ascii c in
  if Nat.eqb n 34 then backslash +:+ dq
  else if Nat.eqb n 92 then backslash +:+ backslash
  else if Nat.eqb n 8 then backslash +:+ "b"
  else if Nat.eqb n 12 then backslash +:+ "f"
  else if Nat.eqb n 10 then backslash +:+ "n"
  else if Nat.eqb n 13 then backslash +:+ "r"
  else if Nat.eqb n 9 then backslash +:+ "t"
  else if Nat.ltb n 32 then backslash +:+ "u00" +:+ hex_digit (n / 16) +:+ hex_digit (n mod 16)
  else String c EmptyString.

Fixpoint escape_all (s : string) : string :=
  match s with
  | EmptyString => EmptyString
  | String c s' => escape c +:+ escape_all s'
  end.

Definition quote (s : string) : string := dq +:+ escape_all s +:+ dq.

Fixpoint stringify (indent : string) (v : json) : string :=
  match v with
  | JString s => quote s
  | JBool b => if b then "true" else "false"
  | JObject [] => "{}"
  | JObject members =>
      let inner := indent +:+ "  " in
      let member := fun kv : string * json =>
        inner +:+ quote kv.1 +:+ ": " +:+ stringify inner kv.2 in
      "{" +:+ nl +:+ String.concat ("," +:+ nl) (map member members)
          +:+ nl +:+ indent +:+ "}"
  end.

Definition JSON_stringify (v : json) : string := stringify "" v.

(** Property access on an object: [field k v] is [v[k]]. *)
Fixpoint assoc (k : string) (members : list (string * json)) : option json :=
  match members with
  | [] => None
  | (k', v) :: members' => if String.eqb k k' then Some v else assoc k members'
  end.

Definition field (k : string) (v : json) : option json :=
  match v with
  | JObject members => assoc k members
  | _ => None
  end.

(** ** The console *)

Inductive color := red | green | yellow | blue | magenta | cyan.

Definition colors (c : color) : string :=
  match c with
  | red => esc +:+ "[31m"
  | green => esc +:+ "[32m"
  | yellow => esc +:+ "[33m"
  | blue => esc +:+ "[34m"
  | magenta => esc +:+ "[35m"
  | cyan => esc +:+ "[36m"
  end.

Definition colors_reset : string := esc +:+ "[0m".

Definition printColorMessage (text : string) (c : color) : M unit :=
  console_log (colors c +:+ text +:+ colors_reset).

Definition rl_close : M unit := emit Close.

(** ** The manifest *)

(** The object literal [projectPackageJson] of [createProjectPackageJson]. *)
Definition projectPackageJson (serverName : string) : json :=
  JObject
    [ ("name", JString serverName);
      ("module", JString "src/index.ts");
      ("type", JString "module");
      ("version", JString "1.0.0");
      ("description", JString ("Model Context Protocol (MCP) Server - " +:+ serverName));
      ("private", JBool true);
      ("bin", JObject [ (serverName, JString "build/index.js") ]);
      ("scripts", JObject
        [ ("start", JString "node --loader ts-node/esm src/index.ts");
          ("start:bun", JString "bun run src/index.ts");
          ("build", JString "npm run build:bun || npm run build:tsc");
          ("build:bun", JString ("command -v bun >/dev/null && bun build src/index.ts --outdir build --target node || (echo " +:+ sq +:+ "Bun not found, using tsc" +:+ sq +:+ " && npm run build:tsc)"));
          ("build:tsc", JString "tsc --project tsconfig.json && chmod +x build/index.js");
          ("build:http", JString "npm run build:http:bun || npm run build:http:tsc");
          ("build:http:bun", JString ("command -v bun >/dev/null && bun build src/server/http-server.ts --outdir build --target node || (echo " +:+ sq +:+ "Bun not found, using tsc" +:+ sq +:+ " && npm run build:http:tsc)"));
          ("build:http:tsc", JString "tsc --project tsconfig.json");
          ("dev", JString "nodemon --exec ts-node --esm src/index.ts");
          ("dev:bun", JString "bun --watch src/index.ts");
          ("start:http", JString "node --loader ts-node/esm src/server/http-server.ts");
          ("start:http:bun", JString "bun run src/server/http-server.ts");
          ("dev:http", JString "nodemon --exec ts-node --esm src/server/http-server.ts");
          ("dev:http:bun", JString "bun --watch src/server/http-server.ts");
          ("prepare", JString "npm run build") ]);
      ("devDependencies", JObject
        [ ("@types/bun", JString "latest");
          ("@types/cors", JString "^2.8.17");
          ("@types/node", JString "^20.11.0") ]);
      ("peerDependencies", JObject
        [ ("typescript", JString "^5.8.2");
          ("@valibot/to-json-schema", JString "^1.0.0");
          ("effect", JString "^3.14.4") ]);
      ("dependencies", JObject
        [ ("fastmcp", JString "^1.21.0");
          ("cors", JString "^2.8.5");
          ("zod", JString "^3.24.2") ]) ].

(** ** The script

    [rootDir] is the directory of the installed package, [targetDir] is
    [process.cwd()], [answer] is the line the user types at the prompt, and
    [subprocess] is the world outside: what running a shell command does
    to the file system and whether it exits with status 0.  [depth] is the
    fuel [main] hands to [copyFiles]. *)
Section Script.

Variable rootDir : path.
Variable targetDir : path.
Variable answer : string.
Variable subprocess : string → filesystem → filesystem * bool.
Variable depth : nat.

Definition sourceDir : path := path_join rootDir "src".

Definition promptUser (question : string) : M string :=
  emit (Question question) ;;
  ret answer.

(** [child_process.execSync]: throws when the command fails. *)
Definition execSync (command : string) : M unit :=
  fs <- get_files ;;
  put_files (subprocess command fs).1 ;;
  emit (Spawn command (subprocess command fs).2) ;;
  if (subprocess command fs).2 then ret tt
  else throw (Error ("Command failed: " +:+ command)).

Definition isDirectoryEmpty : M bool :=
  files <- readdirSync targetDir ;;
  ret (Nat.eqb (length files) 0 ||
       (Nat.eqb (length files) 1 &&
        match files !! 0%nat with
        | Some first => String.eqb first ".git"
        | None => false
        end)).

Definition detectPackageManager : M string :=
  try_catch
    (execSync "which bun" ;;
     ret "bun")
    (fun _ =>
       try_catch
         (execSync "which npm" ;;
          ret "npm")
         (fun _ => ret "npm")).

Definition install_warning (e : error) : string :=
  nl +:+ "⚠️ Couldn't automatically install dependencies or build: " +:+ message e.

Definition installAndBuild : M unit :=
  packageManager <- detectPackageManager ;;
  try_catch
    (printColorMessage (nl +:+ "📦 Installing dependencies using " +:+ packageManager +:+ "...") blue ;;
     execSync (packageManager +:+ " install") ;;
     printColorMessage (nl +:+ "🔨 Building project...") blue ;;
     execSync (packageManager +:+ " run build") ;;
     printColorMessage (nl +:+ "✅ Dependencies installed and project built successfully!") green)
    (fun error =>
       printColorMessage (install_warning error) yellow ;;
       printColorMessage (nl +:+ "You can install dependencies and build manually:") yellow ;;
       console_log ("  cd " +:+ path_text targetDir) ;;
       console_log "  npm install" ;;
       console_log "  npm run build").

Definition createProjectPackageJson (serverName : string) : M unit :=
  let packageJsonPath := path_join targetDir "package.json" in
  writeFileSync packageJsonPath (JSON_stringify (projectPackageJson serverName)) ;;
  console_log ("📄 Created " +:+ path_text packageJsonPath).

(** The template literal of [createCustomReadme], one line per element. *)
Definition readmeContent (serverName : string) : string :=
  let cwd := path_text targetDir in
  let fence := backtick +:+ backtick +:+ backtick in
  unlines
    [ "# " +:+ serverName;
      "";
      "![License: MIT](https://img.shields.io/badge/License-MIT-blue.svg)";
      "![TypeScript](https://img.shields.io/badge/TypeScript-5.0+-3178C6)";
      "";
      "A custom MCP (Model Context Protocol) server built using FastMCP.";
      "";
      "## 📖 Connecting to the Server";
      "";
      "### Connecting from Cursor";
      "";
      "To connect to your MCP server from Cursor:";
      "";
      "1. Open Cursor Settings";
      "2. Select " +:+ dq +:+ "MCP" +:+ dq +:+ " section";
      "3. Click " +:+ dq +:+ "Add new global MCP server" +:+ dq;
      "4. Use the following JSON:";
      "";
      fence +:+ "json";
      "{";
      "  " +:+ dq +:+ "mcpServers" +:+ dq +:+ ": {";
      "    " +:+ dq +:+ serverName +:+ dq +:+ ": {";
      "      " +:+ dq +:+ "command" +:+ dq +:+ ": " +:+ dq +:+ "npx" +:+ dq +:+ ",";
      "      " +:+ dq +:+ "args" +:+ dq +:+ ": [";
      "        " +:+ dq +:+ cwd +:+ dq;
      "      ],";
      "      " +:+ dq +:+ "env" +:+ dq +:+ ": {";
      "        " +:+ dq +:+ "ENVIRONMENT_VARIABLE" +:+ dq +:+ ": " +:+ dq +:+ "value" +:+ dq;
      "      }";
      "    },";
      "    " +:+ dq +:+ serverName +:+ "-http" +:+ dq +:+ ": {";
      "      " +:+ dq +:+ "url" +:+ dq +:+ ": " +:+ dq +:+ "http://localhost:3001/sse" +:+ dq;
      "    }";
      "  }";
      "}";
      fence;
      "";
      "### Connecting from Claude Code";
      "";
      "To connect to your MCP server from Claude Code:";
      "";
      "run " +:+ backtick +:+ "claude mcp add-json " +:+ serverName +:+ " " +:+ sq
        +:+ "{ " +:+ dq +:+ "command" +:+ dq +:+ ": " +:+ dq +:+ "npx" +:+ dq
        +:+ ", " +:+ dq +:+ "args" +:+ dq +:+ ": [ " +:+ dq +:+ cwd +:+ dq +:+ " ], "
        +:+ dq +:+ "env" +:+ dq +:+ ": { " +:+ dq +:+ "ENVIRONMENT_VARIABLE" +:+ dq
        +:+ ": " +:+ dq +:+ "value" +:+ dq +:+ " } }" +:+ sq +:+ backtick;
      "";
      "### Using mcp.json with Cursor";
      "";
      "For a more portable configuration, create an " +:+ backtick +:+ ".cursor/mcp.json"
        +:+ backtick +:+ " file in your project's root directory.";
      "";
      "## 🔧 Environment Variables";
      "";
      "| Variable | Description | Default |";
      "|----------|-------------|---------|";
      "| PORT     | HTTP server port | 3001 |";
      "| HOST     | HTTP server host | 0.0.0.0 |";
      "";
      "## 🛠️ Adding Custom Tools and Resources";
      "";
      "When adding custom tools, resources, or prompts to your FastMCP server:";
      "";
      "### Tools";
      "";
      fence +:+ "typescript";
      "server.addTool({";
      "  name: " +:+ dq +:+ "hello_world" +:+ dq +:+ ",";
      "  description: " +:+ dq +:+ "A simple hello world tool" +:+ dq +:+ ",";
      "  parameters: z.object({";
      "    name: z.string().describe(" +:+ dq +:+ "Name to greet" +:+ dq +:+ ")";
      "  }),";
      "  execute: async (params) => {";
      "    return " +:+ backtick +:+ "Hello, ${params.name}!" +:+ backtick +:+ ";";
      "  }";
      "});";
      fence;
      "";
      "### Resources";
      "";
      fence +:+ "typescript";
      "server.addResourceTemplate({";
      "  uriTemplate: " +:+ dq +:+ "example://{id}" +:+ dq +:+ ",";
      "  name: " +:+ dq +:+ "Example Resource" +:+ dq +:+ ",";
      "  mimeType: " +:+ dq +:+ "text/plain" +:+ dq +:+ ",";
      "  arguments: [";
      "    {";
      "      name: " +:+ dq +:+ "id" +:+ dq +:+ ",";
      "      description: " +:+ dq +:+ "Resource ID" +:+ dq +:+ ",";
      "      required: true,";
      "    },";
      "  ],";
      "  async load({ id }) {";
      "    return {";
      "      text: " +:+ backtick +:+ "This is an example resource with ID: ${id}" +:+ backtick;
      "    };";
      "  }";
      "});";
      fence;
      "";
      "## 📚 Documentation";
      "";
      "For more information about FastMCP, visit [FastMCP GitHub Repository](https://github.com/punkpeye/fastmcp).";
      "";
      "For more information about the Model Context Protocol, visit the [MCP Documentation](https://modelcontextprotocol.io/introduction).";
      "";
      "## 📄 License";
      "";
      "This project is licensed under the MIT License.";
      "" ].

Definition createCustomReadme (serverName : string) : M unit :=
  let readmePath := path_join targetDir "README.md" in
  writeFileSync readmePath (readmeContent serverName) ;;
  console_log ("📄 Created custom " +:+ path_text readmePath).

Definition filesToCopy : list string := [ ".gitignore"; "tsconfig.json" ].

Definition issues_url : string :=
  "https://github.com/mcpdotdirect/create-mcp-server/issues".

Definition main : M unit :=
  console_log nl ;;
  printColorMessage "🚀 Creating a new MCP server project..." cyan ;;
  console_log nl ;;
  empty <- isDirectoryEmpty ;;
  when (negb empty)
    (printColorMessage "⚠️  The current directory is not empty!" yellow ;;
     console_log "To avoid overwriting existing files, please run this command in an empty directory." ;;
     console_log "You can create a new directory and run the command there:" ;;
     console_log (nl +:+ "  mkdir my-mcp-server && cd my-mcp-server && npx @mcpdotdirect/create-mcp-server" +:+ nl) ;;
     process_exit 1) ;;
  found <- existsSync sourceDir ;;
  when (negb found)
    (printColorMessage "⚠️  Source directory not found!" red ;;
     console_log "This is likely an issue with the package installation." ;;
     console_log ("Please report this issue at: " +:+ issues_url) ;;
     process_exit 1) ;;
  try_catch
    (let defaultName := basename targetDir in
     serverName <- promptUser ("📝 Enter a name for your MCP server [" +:+ defaultName +:+ "]: ") ;;
     let serverName := js_or (trim serverName) defaultName in
     copyFiles depth sourceDir (path_join targetDir "src") ;;
     forEach filesToCopy (fun file =>
       let srcPath := path_join rootDir file in
       let destPath := path_join targetDir file in
       present <- existsSync srcPath ;;
       when present
         (copyFileSync srcPath destPath ;;
          console_log ("📄 Created " +:+ path_text destPath))) ;;
     createProjectPackageJson serverName ;;
     createCustomReadme serverName ;;
     printColorMessage "✅ Source files copied successfully!" green ;;
     installAndBuild ;;
     printColorMessage (nl +:+ "🎉 MCP server project created successfully!") green ;;
     console_log (nl +:+ "You can now use the server in an MCP client with JSON like this:") ;;
     console_log "  {" ;;
     console_log ("    " +:+ dq +:+ serverName +:+ dq +:+ ": {") ;;
     console_log ("      " +:+ dq +:+ "command" +:+ dq +:+ ": " +:+ dq +:+ "npx" +:+ dq +:+ ",") ;;
     console_log ("      " +:+ dq +:+ "args" +:+ dq +:+ ": [") ;;
     console_log ("        " +:+ dq +:+ path_text targetDir +:+ dq) ;;
     console_log "      ]" ;;
     console_log "    }" ;;
     console_log "  }" ;;
     console_log (nl +:+ "Or with claude code you can add it with:") ;;
     console_log ("  claude mcp add " +:+ serverName +:+ " -- npx " +:+ path_text targetDir) ;;
     console_log (nl +:+ "Happy coding! 🚀" +:+ nl) ;;
     rl_close)
    (fun error =>
       printColorMessage (nl +:+ "❌ Error creating MCP server project: " +:+ message error) red ;;
       console_log ("Please report this issue at: " +:+ issues_url) ;;
       rl_close ;;
       process_exit 1).

(** The last statement of the file: [main().catch(...)]. *)
Definition script : M unit :=
  try_catch main
    (fun error =>
       printColorMessage (nl +:+ "❌ Unexpected error: " +:+ message error) red ;;
       rl_close ;;
       process_exit 1).

End Script.

(** The exit status of the process once [script] has run: a normal return
    leaves status 0, [process.exit(code)] leaves [code].  Nothing is set
    for a run that used up its fuel, and [script] lets no exception out. *)
Definition exit_code (r : outcome unit) : option Z :=
  match r with
  | Return _ => Some 0%Z
  | Exit code => Some code
  | Throw _ => Some 1%Z
  | OutOfFuel => None
  end.

(** ** Vocabulary of the statements *)

(** The script starts with the file system it finds and nothing printed. *)
Definition boot (fs : filesystem) : world := {| files := fs; trace := [] |}.

(** The names the exclusion test of [copyFiles] compares against. *)
Definition exclusion_set : list string :=
  [ "node_modules"; "package-lock.json"; "npm-debug.log"; "yarn.lock";
    "pnpm-lock.yaml"; "bun.lock"; ".git"; "bin"; ".cursor"; "LICENSE"; "build" ].

(** A relative path is retained when none of its components is excluded:
    neither the entry itself nor any directory above it. *)
Definition retained (r : path) : bool :=
  forallb (fun n => negb (excluded n)) r.

(** Every entry sits in a directory. *)
Definition well_formed (fs : filesystem) : Prop :=
  ∀ (p : path) (n : string), is_Some (fs !! (p ++ [n])) → fs !! p = Some Dir.

(** Neither path lies inside the other. *)
Definition apart (p q : path) : Prop :=
  ¬ p `prefix_of` q ∧ ¬ q `prefix_of` p.

(** Nothing exists at [p] or below it. *)
Definition vacant (fs : filesystem) (p : path) : Prop :=
  ∀ r : path, fs !! (p ++ r) = None.

(** No regular file stands where [mkdir -p p] needs a directory. *)
Definition no_file_above (fs : filesystem) (p : path) : Prop :=
  ∀ (q : path) data, q `prefix_of` p → fs !! q ≠ Some (File data).

(** Nothing exists below [p]: [p] is absent, or an empty directory, or a
    file. *)
Definition empty_below (fs : filesystem) (p : path) : Prop :=
  ∀ (n : string) (r : path), fs !! (p ++ n :: r) = None.

(** [p] can serve as a destination: it is absent and [mkdir -p] can
    create it, or it stands there with directories all the way down. *)
Definition creatable (fs : filesystem) (p : path) : Prop :=
  (fs !! p = None ∧ no_file_above fs p) ∨
  (∀ q : path, q `prefix_of` p → fs !! q = Some Dir).

(** A world outside in which every command succeeds and changes nothing. *)
Definition quiet (command : string) (fs : filesystem) : filesystem * bool := (fs, true).

(** The install and build commands [installAndBuild] may run. *)
Definition build_steps : list string :=
  [ "bun install"; "bun run build"; "npm install"; "npm run build" ].

(** Every run of [m] takes a world to one related to it by [R]. *)
Definition steps (R : relation world) {A} (m : M A) : Prop :=
  ∀ w : world, R w (m w).2.

(** The file system is the same outside the paths in [S]. *)
Definition frame (S : path → Prop) : relation world :=
  fun w w' => ∀ q : path, ¬ S q → files w' !! q = files w !! q.

(** The trace has grown by events that satisfy [P]. *)
Definition grows (P : event → Prop) : relation world :=
  fun w w' => ∃ evs, trace w' = trace w ++ evs ∧ Forall P evs.

(** [m] changes the file system at most at the paths in [S]. *)
Definition only_writes {A} (m : M A) (S : path → Prop) : Prop := steps (frame S) m.

(** [m] adds to the trace only events that satisfy [P]. *)
Definition emits {A} (m : M A) (P : event → Prop) : Prop := steps (grows P) m.

(** An event that is no subprocess call. *)
Definition no_spawn (e : event) : Prop :=
  match e with Spawn _ _ => False | _ => True end.

(** Where [copyFiles] may write: the directories leading to the
    destination, and retained paths below it. *)
Definition copy_target (destination q : path) : Prop :=
  q `prefix_of` destination ∨ ∃ r : path, q = destination ++ r ∧ retained r = true.

(** A string made of white-space characters only (the empty string is one). *)
Definition blank (s : string) : Prop :=
  ∃ ts : list string, Forall (fun t => t ∈ whitespace) ts ∧ s = String.concat "" ts.

(** One of the two strings starts with the other. *)
Definition clash (t t' : string) : bool :=
  match after t t', after t' t with
  | None, None => false
  | _, _ => true
  end.

(** Nested property access: [member [k1; k2] v] is [v[k1][k2]]. *)
Fixpoint member (ks : list string) (v : json) : option json :=
  match ks with
  | [] => Some v
  | k :: ks' =>
      match field k v with
      | Some v' => member ks' v'
      | None => None
      end
  end.

(** The bytes [createProjectPackageJson] writes for a project name. *)
Definition manifest_bytes (serverName : string) : list Byte.byte :=
  list_byte_of_string (JSON_stringify (projectPackageJson serverName)).

(** The four stretches of [main], for the statements and proofs about
    its control flow (see [main_split]): the guards before the [try], the
    body of the [try] up to the build, what follows the build, and the two
    [catch] blocks. *)
Definition prelude (rootDir targetDir : path) : M unit :=
  console_log nl ;;
  printColorMessage "🚀 Creating a new MCP server project..." cyan ;;
  console_log nl ;;
  empty <- isDirectoryEmpty targetDir ;;
  when (negb empty)
    (printColorMessage "⚠️  The current directory is not empty!" yellow ;;
     console_log "To avoid overwriting existing files, please run this command in an empty directory." ;;
     console_log "You can create a new directory and run the command there:" ;;
     console_log (nl +:+ "  mkdir my-mcp-server && cd my-mcp-server && npx @mcpdotdirect/create-mcp-server" +:+ nl) ;;
     process_exit 1) ;;
  found <- existsSync (sourceDir rootDir) ;;
  when (negb found)
    (printColorMessage "⚠️  Source directory not found!" red ;;
     console_log "This is likely an issue with the package installation." ;;
     console_log ("Please report this issue at: " +:+ issues_url) ;;
     process_exit 1).

Definition scaffold (rootDir targetDir : path) (answer : string) (depth : nat) : M string :=
  let defaultName := basename targetDir in
  serverName <- promptUser answer ("📝 Enter a name for your MCP server [" +:+ defaultName +:+ "]: ") ;;
  let serverName := js_or (trim serverName) defaultName in
  copyFiles depth (sourceDir rootDir) (path_join targetDir "src") ;;
  forEach filesToCopy (fun file =>
    let srcPath := path_join rootDir file in
    let destPath := path_join targetDir file in
    present <- existsSync srcPath ;;
    when present
      (copyFileSync srcPath destPath ;;
       console_log ("📄 Created " +:+ path_text destPath))) ;;
  createProjectPackageJson targetDir serverName ;;
  createCustomReadme targetDir serverName ;;
  printColorMessage "✅ Source files copied successfully!" green ;;
  ret serverName.

Definition epilogue (targetDir : path) (serverName : string) : M unit :=
  printColorMessage (nl +:+ "🎉 MCP server project created successfully!") green ;;
  console_log (nl +:+ "You can now use the server in an MCP client with JSON like this:") ;;
  console_log "  {" ;;
  console_log ("    " +:+ dq +:+ serverName +:+ dq +:+ ": {") ;;
  console_log ("      " +:+ dq +:+ "command" +:+ dq +:+ ": " +:+ dq +:+ "npx" +:+ dq +:+ ",") ;;
  console_log ("      " +:+ dq +:+ "args" +:+ dq +:+ ": [") ;;
  console_log ("        " +:+ dq +:+ path_text targetDir +:+ dq) ;;
  console_log "      ]" ;;
  console_log "    }" ;;
  console_log "  }" ;;
  console_log (nl +:+ "Or with claude code you can add it with:") ;;
  console_log ("  claude mcp add " +:+ serverName +:+ " -- npx " +:+ path_text targetDir) ;;
  console_log (nl +:+ "Happy coding! 🚀" +:+ nl) ;;
  rl_close.

Definition scaffold_failed (error : error) : M unit :=
  printColorMessage (nl +:+ "❌ Error creating MCP server project: " +:+ message error) red ;;
  console_log ("Please report this issue at: " +:+ issues_url) ;;
  rl_close ;;
  process_exit 1.

Definition unexpected (error : error) : M unit :=
  printColorMessage (nl +:+ "❌ Unexpected error: " +:+ message error) red ;;
  rl_close ;;
  process_exit 1.

(** The warning [installAndBuild] prints when a step fails. *)
Definition warning (e : error) : event :=
  Log (colors yellow +:+ install_warning e +:+ colors_reset).

(** Below [source], every entry sits in a directory. *)
Definition tree_at (fs : filesystem) (source : path) : Prop :=
  ∀ (r : path) (n : string),
    is_Some (fs !! (source ++ r ++ [n])) → fs !! (source ++ r) = Some Dir.

(** Nothing lies [k] levels or more below [source]. *)
Definition shallow (fs : filesystem) (source : path) (k : nat) : Prop :=
  ∀ r : path, is_Some (fs !! (source ++ r)) → (length r < k)%nat.

(** The deepest entry of a file system, for the fuel of [copyFiles]. *)
Definition height (fs : filesystem) : nat :=
  foldr (fun kv h => Nat.max (length kv.1) h) 0%nat (map_to_list fs).

(** The body of the loop of [copyFiles], for one entry. *)
Definition copy_entry (fuel : nat) (source destination : path) (entry : Dirent) : M unit :=
  let srcPath := path_join source (name entry) in
  let destPath := path_join destination (name entry) in
  if excluded (name entry) then ret tt
  else if isDirectory entry then copyFiles fuel srcPath destPath
  else
    copyFileSync srcPath destPath ;;
    console_log ("📄 Created " +:+ path_text destPath).

(** What a finished copy of [source] into [destination] has achieved:
    every retained path below [destination] holds what the same path
    holds below [source], and the directories down to [destination]
    exist. *)
Definition copied (w w' : world) (source destination : path) : Prop :=
  (∀ r : path, retained r = true →
     files w' !! (destination ++ r) = files w !! (source ++ r)) ∧
  (∀ q : path, q `prefix_of` destination → files w' !! q = Some Dir).

(** [copyFiles] with [fuel] does its work on every tree that is less than
    [fuel] levels deep, into any absent or empty destination away from the
    tree. *)
Definition copies (fuel : nat) : Prop :=
  ∀ (source destination : path) (w : world),
    files w !! source = Some Dir →
    apart source destination →
    empty_below (files w) destination →
    creatable (files w) destination →
    tree_at (files w) source →
    shallow (files w) source fuel →
    ∃ w', copyFiles fuel source destination w = (Return tt, w') ∧
          copied w w' source destination.

(** Checks of [well_formed] and [empty_below] that compute. *)
Definition parent_is_dir (fs : filesystem) (kv : path * node) : bool :=
  match kv.1 with
  | [] => true
  | _ => match fs !! removelast kv.1 with Some Dir => true | _ => false end
  end.

Definition well_formed_check (fs : filesystem) : bool :=
  forallb (parent_is_dir fs) (map_to_list fs).

Definition not_below (p : path) (kv : path * node) : bool :=
  match relative_to p kv.1 with
  | Some (_ :: _) => false
  | _ => true
  end.

Definition empty_below_check (fs : filesystem) (p : path) : bool :=
  forallb (not_below p) (map_to_list fs).


(** ** A sample installation

    The package is installed at [/pkg] and holds the four files of the
    scenario of the specification; the user works in [/work]. *)
Definition text (s : string) : list Byte.byte := list_byte_of_string s.

Definition installation (index ignored head readme : list Byte.byte) : filesystem :=
  list_to_map
    [ ([], Dir);
      (["pkg"], Dir);
      (["pkg"; "src"], Dir);
      (["pkg"; "src"; "index.ts"], File index);
      (["pkg"; "node_modules"], Dir);
      (["pkg"; "node_modules"; "ignored.js"], File ignored);
      (["pkg"; ".git"], Dir);
      (["pkg"; ".git"; "HEAD"], File head);
      (["pkg"; "README.md"], File readme) ].

(** The installation, with an empty working directory beside it. *)
Definition sample (index ignored head readme : list Byte.byte) : filesystem :=
  <[ ["work"] := Dir ]> (installation index ignored head readme).

Definition sample0 : filesystem :=
  sample (text "export {}") (text "ignored") (text "ref: refs/heads/main")
    (text "# template").

(** The same, with one stray file in the working directory. *)
Definition sample_notes : filesystem :=
  <[ ["work"; "notes.txt"] := File (text "remember") ]> sample0.

(** The same, with a regular file named [.git] in the working directory. *)
Definition sample_gitfile : filesystem :=
  <[ ["work"; ".git"] := File (text "gitdir: elsewhere") ]> sample0.

(** A machine whose root directory holds nothing but a [.git] directory,
    the package being installed inside it; the user works at the root. *)
Definition sample_root : filesystem :=
  list_to_map
    [ ([], Dir);
      ([".git"], Dir);
      ([".git"; "pkg"], Dir);
      ([".git"; "pkg"; "src"], Dir);
      ([".git"; "pkg"; "src"; "index.ts"], File (text "export {}")) ].

(** A world outside in which [bun] is missing and [npm install] fails. *)
Definition failing_install (command : string) (fs : filesystem) : filesystem * bool :=
  (fs, String.eqb command "which npm").

(** ** Vocabulary of the further statements *)

(** Whenever [m] ends in [process.exit(code)], the code satisfies [S]. *)
Definition exits_with (S : Z → Prop) {A} (m : M A) : Prop :=
  ∀ (w : world) (c : Z), (m w).1 = Exit c → S c.

(** The subprocess calls of a trace, in order, each with its success. *)
Definition spawned (evs : list event) : list (string * bool) :=
  omap (fun e => match e with Spawn c ok => Some (c, ok) | _ => None end) evs.

(** The banner every run starts with. *)
Definition banner : list event :=
  map Log
    [ nl;
      colors cyan +:+ "🚀 Creating a new MCP server project..." +:+ colors_reset;
      nl ].

(** A source node and a destination node that [copyFiles] can reconcile:
    never a directory over a file, never a file over a directory. *)
Definition compatible (s d : option node) : Prop :=
  match s, d with
  | Some Dir, Some (File _) => False
  | Some (File _), Some Dir => False
  | _, _ => True
  end.

(** The destination holds nothing that is in the way of a copy. *)
Definition fits (fs : filesystem) (source destination : path) : Prop :=
  ∀ r : path, retained r = true →
    compatible (fs !! (source ++ r)) (fs !! (destination ++ r)).

(** The line [copyFiles] prints for the file it copied to [r] below the
    destination. *)
Definition created (destination r : path) : event :=
  Log ("📄 Created " +:+ path_text (destination ++ r)).

(** A regular file of the source tree that the exclusion test lets pass. *)
Definition retained_file (fs : filesystem) (source r : path) : Prop :=
  retained r = true ∧ ∃ data, fs !! (source ++ r) = Some (File data).

(** A path of the source tree that the copy reaches. *)
Definition reached (fs : filesystem) (source r : path) : Prop :=
  retained r = true ∧ is_Some (fs !! (source ++ r)).

(** What a finished copy into a destination that may hold files already
    has done: what it reached is mirrored, the directories down to the
    destination exist, everything else is as it was, and one line was
    printed per file copied. *)
Definition overwritten (w w' : world) (source destination : path) : Prop :=
  (∀ r : path, reached (files w) source r →
     files w' !! (destination ++ r) = files w !! (source ++ r)) ∧
  (∀ q : path, q `prefix_of` destination → files w' !! q = Some Dir) ∧
  (∀ q : path, ¬ q `prefix_of` destination →
     (∀ r : path, reached (files w) source r → q ≠ destination ++ r) →
     files w' !! q = files w !! q) ∧
  (∃ rs : list path,
     trace w' = trace w ++ map (created destination) rs ∧ NoDup rs ∧
     ∀ r : path, r ∈ rs ↔ retained_file (files w) source r).

Definition copies_over (fuel : nat) : Prop :=
  ∀ (source destination : path) (w : world),
    files w !! source = Some Dir →
    apart source destination →
    creatable (files w) destination →
    fits (files w) source destination →
    tree_at (files w) source →
    shallow (files w) source fuel →
    ∃ w', copyFiles fuel source destination w = (Return tt, w') ∧
          overwritten w w' source destination.

(** A check of [fits] that computes. *)
Definition fits_at (fs : filesystem) (source destination : path) (kv : path * node) : bool :=
  match relative_to source kv.1 with
  | Some r =>
      if retained r then
        match kv.2, fs !! (destination ++ r) with
        | Dir, Some (File _) => false
        | File _, Some Dir => false
        | _, _ => true
        end
      else true
  | None => true
  end.

Definition fits_check (fs : filesystem) (source destination : path) : bool :=
  forallb (fits_at fs source destination) (map_to_list fs).

(** The sample installation after an earlier run: the working directory
    holds an outdated [src/index.ts], a file of the user's own and a
    directory [src/lib] that the package does not have. *)
Definition sample_stale : filesystem :=
  list_to_map
    [ ([], Dir);
      (["pkg"], Dir);
      (["pkg"; "src"], Dir);
      (["pkg"; "src"; "index.ts"], File (text "export {}"));
      (["pkg"; "src"; "server"], Dir);
      (["pkg"; "src"; "server"; "http.ts"], File (text "listen()"));
      (["pkg"; "src"; "node_modules"], Dir);
      (["pkg"; "src"; "node_modules"; "dep.js"], File (text "dep"));
      (["work"], Dir);
      (["work"; "src"], Dir);
      (["work"; "src"; "index.ts"], File (text "outdated"));
      (["work"; "src"; "lib"], Dir);
      (["work"; "src"; "lib"; "mine.ts"], File (text "my own")) ].

(** The body of the loop of [main] over [filesToCopy], for one file. *)
Definition copy_auxiliary (rootDir targetDir : path) (file : string) : M unit :=
  let srcPath := path_join rootDir file in
  let destPath := path_join targetDir file in
  present <- existsSync srcPath ;;
  when present
    (copyFileSync srcPath destPath ;;
     console_log ("📄 Created " +:+ path_text destPath)).

(** The names [main] writes directly into the working directory. *)
Definition top_level_files : list string :=
  [ ".gitignore"; "tsconfig.json"; "package.json"; "README.md" ].

(** What the scaffolding of [main] leaves in the working directory, for a
    file system [fs] it started from and the file system [fs'] it ended
    with: the mirror of the package's [src], the auxiliary files the
    package has, the generated manifest and document, and everything else
    as it was. *)
Definition scaffolded (fs fs' : filesystem) (rootDir targetDir : path) (serverName : string) : Prop :=
  (∀ r : path,
     fs' !! (targetDir ++ "src" :: r)
     = if retained r then fs !! (rootDir ++ "src" :: r) else None) ∧
  (∀ f : string, f ∈ filesToCopy → fs' !! (targetDir ++ [f]) = fs !! (rootDir ++ [f])) ∧
  fs' !! (targetDir ++ ["package.json"]) = Some (File (manifest_bytes serverName)) ∧
  fs' !! (targetDir ++ ["README.md"])
  = Some (File (text (readmeContent targetDir serverName))) ∧
  (∀ q : path,
     (∀ r : path, q ≠ targetDir ++ "src" :: r) →
     (∀ f : string, f ∈ top_level_files → q ≠ targetDir ++ [f]) →
     fs' !! q = fs !! q).

(** [put o p fs]: the file system after an auxiliary file that was found
    as [o] in the package has been copied to [p], or skipped when the
    package has none. *)
Definition put (o : option node) (p : path) (fs : filesystem) : filesystem :=
  match o with
  | Some (File d) => <[p := File d]> fs
  | _ => fs
  end.



(** A broken installation: the package's [src] is a regular file. *)
Definition sample_flat : filesystem :=
  list_to_map
    [ ([], Dir);
      (["pkg"], Dir);
      (["pkg"; "src"], File (text "not a directory"));
      (["work"], Dir) ].


(** The sample installation with a directory standing where the package
    should have its [tsconfig.json]. *)
Definition sample_odd : filesystem :=
  <[ ["pkg"; "tsconfig.json"] := Dir ]> sample0.




(** ** Running the monad *)

Lemma bind_run {A B} (m : M A) (k : A → M B) (w : world) :
  bind m k w =
  match m w with
  | (Return a, w') => k a w'
  | (Throw e, w') => (Throw e, w')
  | (Exit c, w') => (Exit c, w')
  | (OutOfFuel, w') => (OutOfFuel, w')
  end.
Proof. reflexivity. Qed.

Lemma bind_return {A B} (m : M A) (k : A → M B) (w w' : world) (a : A) :
  m w = (Return a, w') → bind m k w = k a w'.
Proof. intros H. unfold bind. now rewrite H. Qed.

Lemma bind_assoc {A B C} (m : M A) (f : A → M B) (g : B → M C) (w : world) :
  bind (bind m f) g w = bind m (fun a => bind (f a) g) w.
Proof. unfold bind. destruct (m w) as [[a|e|c|] w']; reflexivity. Qed.

(** ** Paths and directory listings *)

Lemma relative_to_app (dir r : path) : relative_to dir (dir ++ r) = Some r.
Proof.
  induction dir as [|a dir IH]; simpl; [reflexivity|].
  now rewrite String.eqb_refl.
Qed.

Lemma relative_to_Some (dir p r : path) :
  relative_to dir p = Some r ↔ p = dir ++ r.
Proof.
  split.
  - revert p. induction dir as [|a dir IH]; intros p H; simpl in *.
    + congruence.
    + destruct p as [|b p]; [discriminate|].
      destruct (String.eqb_spec a b) as [->|]; [|discriminate].
      f_equal. now apply IH.
  - intros ->. apply relative_to_app.
Qed.

Lemma child_of_Some (dir : path) (kv : path * node) (e : Dirent) :
  child_of dir kv = Some e ↔
  kv.1 = dir ++ [name e] ∧ isDirectory e = is_dir kv.2.
Proof.
  unfold child_of. split.
  - destruct (relative_to dir kv.1) as [r|] eqn:Hr; [|discriminate].
    apply relative_to_Some in Hr.
    destruct r as [|n [|? ?]]; try discriminate.
    intros [= <-]. simpl. now split.
  - intros [Hk Hd]. rewrite Hk, relative_to_app.
    destruct e as [n d]. simpl in *. now subst d.
Qed.

Lemma elem_of_children (fs : filesystem) (dir : path) (e : Dirent) :
  e ∈ children fs dir ↔
  ∃ x, fs !! (dir ++ [name e]) = Some x ∧ isDirectory e = is_dir x.
Proof.
  unfold children. rewrite list_elem_of_omap. split.
  - intros [[k x] [Hin Hc]]. apply child_of_Some in Hc as [Hk Hd].
    simpl in *. subst k. apply elem_of_map_to_list in Hin. eauto.
  - intros [x [Hx Hd]]. exists (dir ++ [name e], x). split.
    + now apply elem_of_map_to_list.
    + now apply child_of_Some.
Qed.

Lemma children_names_NoDup (fs : filesystem) (dir : path) :
  NoDup (map name (children fs dir)).
Proof.
  unfold children.
  assert (Hk : NoDup (map_to_list fs).*1) by apply NoDup_fst_map_to_list.
  induction (map_to_list fs) as [|kv l IH]; simpl; [constructor|].
  inversion Hk as [|? ? Hnotin Hnd]; subst.
  destruct (child_of dir kv) as [e|] eqn:He; simpl; [|now apply IH].
  constructor; [|now apply IH].
  intros Hin. apply Hnotin.
  apply list_elem_of_fmap in Hin as [e' [Hname Hin]].
  apply list_elem_of_omap in Hin as [kv' [Hin' He']].
  apply child_of_Some in He as [Hk1 _]. apply child_of_Some in He' as [Hk2 _].
  apply list_elem_of_fmap. exists kv'. split; [|assumption].
  rewrite Hk1, Hk2. now rewrite Hname.
Qed.

Lemma elem_of_children_names (fs : filesystem) (dir : path) (n : string) :
  n ∈ map name (children fs dir) ↔ is_Some (fs !! (dir ++ [n])).
Proof.
  rewrite list_elem_of_fmap. split.
  - intros [e [-> He]]. apply elem_of_children in He as [x [Hx _]]. eauto.
  - intros [x Hx]. exists {| name := n; isDirectory := is_dir x |}.
    split; [reflexivity|]. apply elem_of_children. eauto.
Qed.

Lemma singleton_of_NoDup (l : list string) (a : string) :
  NoDup l → (∀ n, n ∈ l ↔ n = a) → l = [a].
Proof.
  intros Hnd Hall. destruct l as [|b l].
  - specialize (Hall a). rewrite elem_of_nil in Hall. tauto.
  - assert (b = a) as -> by (apply Hall; left).
    destruct l as [|c l]; [reflexivity|].
    assert (c = a) as -> by (apply Hall; right; left).
    inversion Hnd as [|? ? Hnotin _]; subst. exfalso. apply Hnotin. left.
Qed.

(** ** The exclusion test *)

Lemma excluded_iff (n : string) : excluded n = true ↔ n ∈ exclusion_set.
Proof.
  unfold excluded, exclusion_set.
  repeat rewrite orb_true_iff. repeat rewrite String.eqb_eq.
  repeat rewrite elem_of_cons. rewrite elem_of_nil. tauto.
Qed.

Lemma retained_cons (n : string) (r : path) :
  retained (n :: r) = negb (excluded n) && retained r.
Proof. reflexivity. Qed.

Lemma retained_false (r : path) :
  retained r = false ↔ ∃ n, n ∈ r ∧ n ∈ exclusion_set.
Proof.
  induction r as [|a r IH].
  - split; [discriminate|]. intros [n [Hn _]]. now apply elem_of_nil in Hn.
  - rewrite retained_cons, andb_false_iff, negb_false_iff, IH, excluded_iff.
    split.
    + intros [Ha|[n [Hn He]]]; [exists a|exists n]; split; auto; now constructor.
    + intros [n [Hn He]]. apply elem_of_cons in Hn as [->|Hn]; eauto.
Qed.

(** ** The destination-safety check *)

(** The verdict of [isDirectoryEmpty] on the names [readdirSync] returned. *)
Lemma isDirectoryEmpty_run (targetDir : path) (w : world) :
  files w !! targetDir = Some Dir →
  isDirectoryEmpty targetDir w =
  (Return (match map name (children (files w) targetDir) with
           | [] => true
           | [n] => String.eqb n ".git"
           | _ => false
           end), w).
Proof.
  intros Hdir.
  unfold isDirectoryEmpty, readdirSync, readdirSync_withFileTypes, get_files, bind, ret.
  rewrite Hdir.
  destruct (map name (children (files w) targetDir)) as [|a [|b l]]; reflexivity.
Qed.

Lemma listing_nil (fs : filesystem) (dir : path) :
  map name (children fs dir) = [] ↔ ∀ n : string, fs !! (dir ++ [n]) = None.
Proof.
  split.
  - intros H n. destruct (fs !! (dir ++ [n])) as [x|] eqn:Hx; [|reflexivity].
    assert (Hin : n ∈ map name (children fs dir))
      by (apply elem_of_children_names; eauto).
    rewrite H in Hin. now apply elem_of_nil in Hin.
  - intros H. destruct (map name (children fs dir)) as [|a l] eqn:Hl; [reflexivity|].
    assert (Hin : a ∈ map name (children fs dir)) by (rewrite Hl; left).
    apply elem_of_children_names in Hin as [x Hx]. now rewrite H in Hx.
Qed.

Lemma listing_singleton (fs : filesystem) (dir : path) (a : string) :
  map name (children fs dir) = [a] ↔
  ∀ n : string, is_Some (fs !! (dir ++ [n])) ↔ n = a.
Proof.
  split.
  - intros H n. rewrite <- elem_of_children_names, H. apply list_elem_of_singleton.
  - intros H. apply singleton_of_NoDup; [apply children_names_NoDup|].
    intros n. now rewrite elem_of_children_names.
Qed.

Lemma listing_other (fs : filesystem) (dir : path) (n : string) :
  n ≠ ".git" → is_Some (fs !! (dir ++ [n])) →
  match map name (children fs dir) with
  | [] => true
  | [m] => String.eqb m ".git"
  | _ => false
  end = false.
Proof.
  intros Hne Hn. apply elem_of_children_names in Hn.
  destruct (map name (children fs dir)) as [|a [|b l]]; [|..|reflexivity].
  - now apply elem_of_nil in Hn.
  - apply list_elem_of_singleton in Hn as <-. now apply String.eqb_neq.
Qed.

(** C3. [isDirectoryEmpty] answers [true] exactly when the working
    directory has no entry at all, or has a single entry and that entry is
    named [.git]; as soon as any entry with another name is present (a lone
    stray file included) it answers [false].  It changes nothing. *)
Theorem isDirectoryEmpty_iff (targetDir : path) (w : world) :
  files w !! targetDir = Some Dir →
  ∃ b, isDirectoryEmpty targetDir w = (Return b, w) ∧
    (b = true ↔
       (∀ n : string, files w !! (targetDir ++ [n]) = None) ∨
       (∀ n : string, is_Some (files w !! (targetDir ++ [n])) ↔ n = ".git")) ∧
    (∀ n : string, n ≠ ".git" → is_Some (files w !! (targetDir ++ [n])) → b = false).
Proof.
  intros Hdir. eexists. split; [now apply isDirectoryEmpty_run|]. split.
  - rewrite <- listing_nil, <- listing_singleton.
    destruct (map name (children (files w) targetDir)) as [|a [|b l]].
    + split; auto.
    + rewrite String.eqb_eq. split.
      * intros ->. now right.
      * intros [H|H]; [discriminate|congruence].
    + split; [discriminate|]. intros [H|H]; discriminate.
  - intros n Hne Hn. now apply (listing_other _ _ n).
Qed.

(** C10. Only the name of a lone entry counts, never its kind: whatever
    node [x] (a regular file as well as a directory) is the single entry of
    the working directory, the verdict is the comparison of its name with
    [.git], exact and case-sensitive. *)
Theorem isDirectoryEmpty_name_only (targetDir : path) (w : world) (n : string) (x : node) :
  files w !! targetDir = Some Dir →
  files w !! (targetDir ++ [n]) = Some x →
  (∀ m : string, is_Some (files w !! (targetDir ++ [m])) → m = n) →
  isDirectoryEmpty targetDir w = (Return (String.eqb n ".git"), w) ∧
  String.eqb ".git" ".git" = true ∧
  String.eqb ".GIT" ".git" = false ∧
  String.eqb ".gitignore" ".git" = false.
Proof.
  intros Hdir Hx Honly. split; [|now repeat split].
  rewrite isDirectoryEmpty_run by assumption.
  assert (Hl : map name (children (files w) targetDir) = [n]).
  { apply listing_singleton. intros m. split; [apply Honly|].
    intros ->. eauto. }
  now rewrite Hl.
Qed.

(** ** How the operations change the world *)

#[global] Instance frame_preorder (S : path → Prop) : PreOrder (frame S).
Proof.
  split.
  - intros w q _. reflexivity.
  - intros w1 w2 w3 H12 H23 q Hq. now rewrite (H23 q Hq), (H12 q Hq).
Qed.

#[global] Instance grows_preorder (P : event → Prop) : PreOrder (grows P).
Proof.
  split.
  - intros w. exists []. split; [now rewrite app_nil_r|constructor].
  - intros w1 w2 w3 [e1 [H1 P1]] [e2 [H2 P2]]. exists (e1 ++ e2).
    split; [now rewrite H2, H1, app_assoc|now apply Forall_app].
Qed.

Section Steps.

Context (R : relation world) `{!PreOrder R}.

Lemma steps_same {A} (m : M A) : (∀ w, (m w).2 = w) → steps R m.
Proof. intros H w. now rewrite H. Qed.

Lemma steps_bind {A B} (m : M A) (k : A → M B) :
  steps R m → (∀ a, steps R (k a)) → steps R (bind m k).
Proof.
  intros Hm Hk w. specialize (Hm w). rewrite bind_run.
  destruct (m w) as [[a|e|c|] w'] eqn:Hmw; simpl in *; try assumption.
  etransitivity; [exact Hm|apply Hk].
Qed.

Lemma steps_try_catch {A} (body : M A) (handler : error → M A) :
  steps R body → (∀ e, steps R (handler e)) → steps R (try_catch body handler).
Proof.
  intros Hb Hh w. specialize (Hb w). unfold try_catch.
  destruct (body w) as [[a|e|c|] w'] eqn:Hbw; simpl in *; try assumption.
  etransitivity; [exact Hb|apply Hh].
Qed.

Lemma steps_when (cond : bool) (body : M unit) :
  steps R body → steps R (when cond body).
Proof. intros H. destruct cond; [assumption|]. now apply steps_same. Qed.

Lemma steps_forEach {A} (l : list A) (body : A → M unit) :
  (∀ x, steps R (body x)) → steps R (forEach l body).
Proof.
  intros H. induction l as [|x l IH]; simpl.
  - now apply steps_same.
  - apply steps_bind; auto.
Qed.

Lemma steps_existsSync (p : path) : steps R (existsSync p).
Proof. now apply steps_same. Qed.

Lemma steps_readdir (dir : path) : steps R (readdirSync_withFileTypes dir).
Proof.
  apply steps_same. intros w.
  unfold readdirSync_withFileTypes, get_files, bind, ret, throw.
  destruct (files w !! dir) as [[?|]|]; reflexivity.
Qed.

End Steps.

Lemma only_writes_weaken {A} (m : M A) (S S' : path → Prop) :
  (∀ q, S q → S' q) → only_writes m S → only_writes m S'.
Proof. intros Hsub Hm w q Hq. apply Hm. auto. Qed.

Lemma only_writes_pure {A} (m : M A) (S : path → Prop) :
  (∀ w, files (m w).2 = files w) → only_writes m S.
Proof. intros H w q _. now rewrite H. Qed.

Lemma emits_silent {A} (m : M A) (P : event → Prop) :
  (∀ w, trace (m w).2 = trace w) → emits m P.
Proof.
  intros H w. exists []. split; [now rewrite H, app_nil_r|constructor].
Qed.

Lemma emits_emit (e : event) (P : event → Prop) : P e → emits (emit e) P.
Proof. intros He w. exists [e]. split; [reflexivity|now repeat constructor]. Qed.

Lemma only_writes_emit (e : event) (S : path → Prop) : only_writes (emit e) S.
Proof. now apply only_writes_pure. Qed.

Lemma mkdirp_frame (rest : path) :
  ∀ (fs : filesystem) (base : path) (fs' : filesystem),
  mkdirp fs base rest = Some fs' →
  ∀ q : path, ¬ q `prefix_of` base ++ rest → fs' !! q = fs !! q.
Proof.
  induction rest as [|c rest IH]; intros fs base fs' H q Hq; simpl in H.
  - assert (Hfs : fs' = <[base := Dir]> fs)
      by (destruct (fs !! base) as [[?|]|]; congruence).
    subst fs'. apply lookup_insert_ne. intros <-. apply Hq.
    now apply prefix_app_r.
  - assert (Hfs : mkdirp (<[base := Dir]> fs) (base ++ [c]) rest = Some fs')
      by (destruct (fs !! base) as [[?|]|]; congruence).
    rewrite (IH _ _ _ Hfs q) by now rewrite <- app_assoc.
    apply lookup_insert_ne. intros <-. apply Hq. now apply prefix_app_r.
Qed.

Lemma only_writes_mkdir (p : path) :
  only_writes (mkdirSync_recursive p) (fun q => q `prefix_of` p).
Proof.
  intros w q Hq. unfold mkdirSync_recursive, get_files, put_files, bind, throw.
  destruct (mkdirp (files w) [] p) as [fs'|] eqn:Hm; simpl; [|reflexivity].
  now apply (mkdirp_frame _ _ _ _ Hm).
Qed.

Lemma only_writes_write_file (p : path) (data : list Byte.byte) :
  only_writes (write_file p data) (fun q => q = p).
Proof.
  intros w q Hq. unfold write_file, get_files, put_files, bind, throw.
  destruct (files w !! p) as [[?|]|]; simpl; try reflexivity;
    destruct (files w !! dirname p) as [[?|]|]; simpl; try reflexivity;
    now apply lookup_insert_ne.
Qed.

Lemma only_writes_copyFileSync (src dest : path) :
  only_writes (copyFileSync src dest) (fun q => q = dest).
Proof.
  intros w q Hq. unfold copyFileSync, get_files, bind, throw.
  destruct (files w !! src) as [[data|]|]; simpl; try reflexivity.
  now apply only_writes_write_file.
Qed.

Lemma copy_target_child (destination : path) (n : string) (q : path) :
  excluded n = false →
  copy_target (destination ++ [n]) q → copy_target destination q.
Proof.
  intros Hn [Hpre|[r [-> Hr]]].
  - destruct Hpre as [k Hk].
    induction k as [|c k' _] using rev_ind.
    + right. exists [n]. rewrite app_nil_r in Hk. split; [congruence|].
      rewrite retained_cons, Hn. reflexivity.
    + left. exists k'. rewrite app_assoc in Hk.
      now apply app_inj_tail in Hk as [-> _].
  - right. exists (n :: r). rewrite <- app_assoc. split; [reflexivity|].
    now rewrite retained_cons, Hn.
Qed.

Lemma copyFiles_only_writes (fuel : nat) :
  ∀ source destination : path,
  only_writes (copyFiles fuel source destination) (copy_target destination).
Proof.
  induction fuel as [|fuel IH]; intros source destination; simpl.
  - now apply only_writes_pure.
  - apply steps_bind; [tc_solve|apply steps_existsSync; tc_solve|]. intros present.
    apply steps_bind; [tc_solve| |].
    { apply steps_when; [tc_solve|].
      apply (only_writes_weaken _ (fun q => q `prefix_of` destination)); [|apply only_writes_mkdir].
      intros q Hq. now left. }
    intros _. apply steps_bind; [tc_solve|apply steps_readdir; tc_solve|]. intros entries.
    apply steps_forEach; [tc_solve|]. intros entry.
    destruct (excluded (name entry)) eqn:Hex; [now apply only_writes_pure|].
    destruct (isDirectory entry).
    + eapply only_writes_weaken; [|apply IH].
      intros q. now apply copy_target_child.
    + apply steps_bind; [tc_solve| |intros _; apply only_writes_emit].
      eapply only_writes_weaken; [|apply only_writes_copyFileSync].
      intros q ->. right. exists [name entry]. split; [reflexivity|].
      now rewrite retained_cons, Hex.
Qed.

(** ** The exclusion policy at every depth *)

Lemma unretained_not_target (destination r : path) :
  retained r = false → ¬ copy_target destination (destination ++ r).
Proof.
  intros Hr [Hpre|[r' [Heq Hr']]].
  - destruct Hpre as [k Hk]. rewrite <- app_assoc in Hk.
    rewrite <- (app_nil_r destination) in Hk at 1.
    apply app_inv_head in Hk. symmetry in Hk.
    apply app_eq_nil in Hk as [-> _]. discriminate.
  - apply app_inv_head in Heq. congruence.
Qed.

(** C2. The exclusion test is plain equality of the entry's name with one
    of eleven fixed names, nothing else: among them the dependency cache
    [node_modules], the lock files of npm, yarn, pnpm and bun, [.git],
    [build], [LICENSE] and [bin]; a name that differs in case, or that only
    starts with or contains an excluded name, is not excluded.  The test
    reads the name alone, and it is applied at every level: whatever the
    depth at which an excluded name occurs in a path below the
    destination, [copyFiles] leaves that path as it was. *)
Theorem exclusion_policy :
  (∀ n : string, excluded n = true ↔ n ∈ exclusion_set) ∧
  Forall (fun n => excluded n = true)
    [ "node_modules"; "package-lock.json"; "yarn.lock"; "pnpm-lock.yaml";
      "bun.lock"; ".git"; "build"; "LICENSE"; "bin" ] ∧
  Forall (fun n => excluded n = false)
    [ "Node_modules"; "node_modules2"; "node"; "license"; ".gitignore";
      "build.js"; "my-bin"; "src/bin"; "" ] ∧
  (∀ (fuel : nat) (source destination : path) (w : world) (r : path) (n : string),
     n ∈ r → n ∈ exclusion_set →
     files (copyFiles fuel source destination w).2 !! (destination ++ r)
     = files w !! (destination ++ r)).
Proof.
  split; [exact excluded_iff|].
  split; [repeat constructor|].
  split; [repeat constructor|].
  intros fuel source destination w r n Hn He.
  apply copyFiles_only_writes, unretained_not_target.
  apply retained_false. eauto.
Qed.

(** ** The package-manager probe *)

Lemma detectPackageManager_run
    (subprocess : string → filesystem → filesystem * bool) (w : world) :
  let bun := subprocess "which bun" (files w) in
  let npm := subprocess "which npm" bun.1 in
  detectPackageManager subprocess w =
  if bun.2
  then (Return "bun",
        {| files := bun.1; trace := trace w ++ [Spawn "which bun" true] |})
  else (Return "npm",
        {| files := npm.1;
           trace := (trace w ++ [Spawn "which bun" false]) ++ [Spawn "which npm" npm.2] |}).
Proof.
  unfold detectPackageManager, try_catch, execSync, bind, get_files, put_files,
    emit, ret, throw. simpl.
  destruct (subprocess "which bun" (files w)) as [fs1 [|]]; simpl; [reflexivity|].
  destruct (subprocess "which npm" fs1) as [fs2 [|]]; reflexivity.
Qed.

(** C9. [detectPackageManager] tries [bun] first and [npm] second: it
    answers ["bun"] when the probe [which bun] succeeds, and does not
    probe further; otherwise it probes [which npm] and answers ["npm"],
    whether that probe succeeds or fails.  It always returns: no failure
    of a probe gets out of it. *)
Theorem detectPackageManager_fallback
    (subprocess : string → filesystem → filesystem * bool) (w : world) :
  ∃ (w' : world) (npm_found : bool),
    detectPackageManager subprocess w
    = (Return (if (subprocess "which bun" (files w)).2 then "bun" else "npm"), w') ∧
    trace w' = trace w ++
      (if (subprocess "which bun" (files w)).2
       then [Spawn "which bun" true]
       else [Spawn "which bun" false; Spawn "which npm" npm_found]).
Proof.
  rewrite detectPackageManager_run.
  destruct (subprocess "which bun" (files w)) as [fs1 [|]]; cbn [fst snd].
  - exists {| files := fs1; trace := trace w ++ [Spawn "which bun" true] |}, true.
    now split.
  - eexists _, (subprocess "which npm" fs1).2. split; [reflexivity|].
    cbn [trace]. now rewrite <- app_assoc.
Qed.

(** ** Trimming *)

Lemma append_cons (c : ascii) (a b : string) :
  String c a +:+ b = String c (a +:+ b).
Proof. reflexivity. Qed.

Lemma append_nil_l (s : string) : "" +:+ s = s.
Proof. reflexivity. Qed.

Lemma append_nil_r (s : string) : s +:+ "" = s.
Proof.
  induction s as [|c s IH]; [reflexivity|].
  now rewrite append_cons, IH.
Qed.

Lemma append_assoc (a b c : string) : (a +:+ b) +:+ c = a +:+ (b +:+ c).
Proof.
  induction a as [|x a IH]; [reflexivity|].
  now rewrite !append_cons, IH.
Qed.

Lemma length_append (a b : string) :
  String.length (a +:+ b) = String.length a + String.length b.
Proof.
  induction a as [|x a IH]; [reflexivity|].
  rewrite append_cons. simpl. now rewrite IH.
Qed.

Lemma append_eq_nil (a b : string) : a +:+ b = "" → a = "" ∧ b = "".
Proof.
  destruct a; [rewrite append_nil_l; auto|].
  rewrite append_cons. discriminate.
Qed.

Lemma after_Some (t s r : string) : after t s = Some r ↔ s = t +:+ r.
Proof.
  revert s. induction t as [|a t IH]; intros s.
  - rewrite append_nil_l. simpl. split; congruence.
  - rewrite append_cons. destruct s as [|b s]; simpl; [split; discriminate|].
    destruct (Ascii.eqb_spec a b) as [->|Hne].
    + rewrite IH. split; congruence.
    + split; [discriminate|]. congruence.
Qed.

Lemma first_after_Some (tokens : list string) (s r : string) :
  first_after tokens s = Some r → ∃ t, t ∈ tokens ∧ s = t +:+ r.
Proof.
  induction tokens as [|t tokens IH]; simpl; [discriminate|].
  destruct (after t s) as [r'|] eqn:Ha.
  - intros [= ->]. exists t. split; [left|]. now apply after_Some.
  - intros H. destruct (IH H) as [t' [Hin Hs]]. exists t'. split; [now right|assumption].
Qed.

Lemma first_after_None (tokens : list string) (s : string) :
  first_after tokens s = None → ∀ t r, t ∈ tokens → s ≠ t +:+ r.
Proof.
  induction tokens as [|t tokens IH]; simpl; intros H t' r Hin.
  - now apply elem_of_nil in Hin.
  - destruct (after t s) as [r'|] eqn:Ha; [discriminate|].
    apply elem_of_cons in Hin as [->|Hin]; [|now apply IH].
    intros Hs. apply after_Some in Hs. congruence.
Qed.

Lemma clash_of_append (t t' a b : string) : t +:+ a = t' +:+ b → clash t t' = true.
Proof.
  unfold clash. revert t'. induction t as [|x t IH]; intros t' H.
  - reflexivity.
  - destruct t' as [|y t']; [simpl; reflexivity|].
    rewrite !append_cons in H. injection H as -> H. simpl. rewrite Ascii.eqb_refl.
    now apply IH.
Qed.

Lemma whitespace_prefix_free :
  forallb (fun t => forallb (fun t' => implb (clash t t') (String.eqb t t')) whitespace)
    whitespace = true.
Proof. vm_compute. reflexivity. Qed.

Lemma whitespace_unique (t t' a b : string) :
  t ∈ whitespace → t' ∈ whitespace → t +:+ a = t' +:+ b → t = t' ∧ a = b.
Proof.
  intros Ht Ht' H.
  assert (Heq : t = t').
  { pose proof whitespace_prefix_free as Hpf.
    rewrite forallb_forall in Hpf. apply list_elem_of_In in Ht, Ht'.
    specialize (Hpf t Ht). rewrite forallb_forall in Hpf. specialize (Hpf t' Ht').
    rewrite (clash_of_append _ _ _ _ H) in Hpf. now apply String.eqb_eq. }
  subst t'. split; [reflexivity|]. now apply String.app_inj in H.
Qed.

Lemma whitespace_nonempty (t : string) : t ∈ whitespace → (0 < String.length t)%nat.
Proof.
  intros Ht. apply list_elem_of_In in Ht.
  assert (H : forallb (fun t => Nat.ltb 0 (String.length t)) whitespace = true)
    by (vm_compute; reflexivity).
  rewrite forallb_forall in H. apply Nat.ltb_lt. now apply H.
Qed.

Lemma skip_space_Some (s r : string) :
  skip_space s = Some r → ∃ t, t ∈ whitespace ∧ s = t +:+ r.
Proof. apply first_after_Some. Qed.

Lemma skip_space_token (t r : string) :
  t ∈ whitespace → skip_space (t +:+ r) = Some r.
Proof.
  intros Ht. destruct (skip_space (t +:+ r)) as [r'|] eqn:Hs.
  - apply skip_space_Some in Hs as [t' [Ht' Heq]].
    now destruct (whitespace_unique _ _ _ _ Ht Ht' Heq) as [_ ->].
  - exfalso. now apply (first_after_None _ _ Hs t r).
Qed.

Lemma blank_nil : blank "".
Proof. exists []. split; [constructor|reflexivity]. Qed.

Lemma concat_cons (t : string) (ts : list string) :
  String.concat "" (t :: ts) = t +:+ String.concat "" ts.
Proof.
  destruct ts as [|t' ts]; [|reflexivity].
  cbn [String.concat]. symmetry. apply append_nil_r.
Qed.

Lemma blank_cons (t s : string) : t ∈ whitespace → blank s → blank (t +:+ s).
Proof.
  intros Ht [ts [Hts ->]]. exists (t :: ts). split; [now constructor|].
  now rewrite concat_cons.
Qed.

Lemma blank_inv (s : string) :
  blank s → s = "" ∨ ∃ t r, t ∈ whitespace ∧ blank r ∧ s = t +:+ r.
Proof.
  intros [[|t ts] [Hts ->]]; [now left|right].
  inversion Hts; subst. exists t, (String.concat "" ts).
  split; [assumption|]. split; [now exists ts|apply concat_cons].
Qed.

Lemma blank_app (a b : string) : blank a → blank b → blank (a +:+ b).
Proof.
  intros [ts [Hts ->]] Hb. induction Hts as [|t ts Ht Hts IH].
  - assumption.
  - rewrite concat_cons, append_assoc. now apply blank_cons.
Qed.

Lemma trimStart_loop_spec (fuel : nat) :
  ∀ s, (String.length s ≤ fuel)%nat →
  ∃ l, blank l ∧ s = l +:+ trimStart_loop fuel s ∧
       skip_space (trimStart_loop fuel s) = None.
Proof.
  induction fuel as [|fuel IH]; intros s Hlen; simpl.
  - destruct s; [|simpl in Hlen; lia].
    exists "". split; [apply blank_nil|]. split; reflexivity.
  - destruct (skip_space s) as [rest|] eqn:Hs.
    + destruct (skip_space_Some _ _ Hs) as [t [Ht ->]].
      pose proof (whitespace_nonempty _ Ht) as Hpos.
      rewrite length_append in Hlen.
      destruct (IH rest ltac:(lia)) as [l [Hl [Hrest Hnone]]].
      exists (t +:+ l). split; [now apply blank_cons|]. split; [|assumption].
      rewrite append_assoc. now rewrite <- Hrest.
    + exists "". split; [apply blank_nil|]. now split.
Qed.

Lemma trimStart_spec (s : string) :
  ∃ l, blank l ∧ s = l +:+ trimStart s ∧ skip_space (trimStart s) = None.
Proof. apply trimStart_loop_spec. reflexivity. Qed.

Lemma trimStart_loop_blank (s : string) :
  blank s → ∀ fuel, (String.length s ≤ fuel)%nat → trimStart_loop fuel s = "".
Proof.
  intros [ts [Hts ->]]. induction Hts as [|t ts Ht Hts IH]; intros fuel Hlen.
  - destruct fuel; reflexivity.
  - rewrite concat_cons in *. rewrite length_append in Hlen.
    pose proof (whitespace_nonempty _ Ht) as Hpos.
    destruct fuel as [|fuel]; [lia|]. simpl.
    rewrite skip_space_token by assumption. apply IH. lia.
Qed.

Lemma whitespace_only_iff (s : string) : whitespace_only s = true ↔ blank s.
Proof.
  unfold whitespace_only. split.
  - intros H. destruct (trimStart_spec s) as [l [Hl [Hs _]]].
    destruct (trimStart s); [|discriminate].
    rewrite append_nil_r in Hs. now subst l.
  - intros H. unfold trimStart. now rewrite trimStart_loop_blank.
Qed.

Lemma trimEnd_spec (s : string) :
  (∃ r, blank r ∧ s = trimEnd s +:+ r) ∧
  (∀ a b, trimEnd s = a +:+ b → blank b → b = "").
Proof.
  induction s as [|c s [[r [Hr Hs]] Hend]].
  - split.
    + exists "". split; [apply blank_nil|reflexivity].
    + intros a b H _. simpl in H. symmetry in H. now apply append_eq_nil in H.
  - cbn [trimEnd]. destruct (whitespace_only (String c s)) eqn:Hw.
    + split.
      * exists (String c s). split; [now apply whitespace_only_iff|reflexivity].
      * intros a b H _. symmetry in H. now apply append_eq_nil in H.
    + split.
      * exists r. split; [assumption|]. rewrite append_cons. now rewrite <- Hs.
      * intros a b H Hb. destruct a as [|x a].
        -- exfalso. rewrite append_nil_l in H.
           assert (Hall : blank (String c s)).
           { rewrite Hs, <- append_cons, H. now apply blank_app. }
           apply whitespace_only_iff in Hall. congruence.
        -- rewrite append_cons in H. injection H as _ H. now apply (Hend a).
Qed.

(** [trim] removes a run of white space on each side and leaves a text
    that neither starts nor ends with a white-space character. *)
Lemma trim_spec (s : string) :
  (∃ l r, blank l ∧ blank r ∧ s = l +:+ trim s +:+ r) ∧
  (∀ t rest, t ∈ whitespace → trim s ≠ t +:+ rest) ∧
  (∀ t rest, t ∈ whitespace → trim s ≠ rest +:+ t).
Proof.
  unfold trim.
  destruct (trimStart_spec s) as [l [Hl [Hs Hnone]]].
  destruct (trimEnd_spec (trimStart s)) as [[r [Hr Hm]] Hend].
  split; [|split].
  - exists l, r. split; [assumption|]. split; [assumption|]. now rewrite <- Hm.
  - intros t rest Ht H. rewrite H, append_assoc in Hm.
    now apply (first_after_None _ _ Hnone t (rest +:+ r)).
  - intros t rest Ht H.
    assert (Hb : blank t).
    { rewrite <- (append_nil_r t). apply blank_cons; [assumption|apply blank_nil]. }
    pose proof (Hend rest t H Hb) as ->.
    apply whitespace_nonempty in Ht. simpl in Ht. lia.
Qed.

Lemma trim_blank (s : string) : trim s = "" ↔ blank s.
Proof.
  split.
  - intros H. destruct (trimStart_spec s) as [l [Hl [Hs Hnone]]].
    destruct (trimEnd_spec (trimStart s)) as [[r [Hr Hm]] _].
    unfold trim in H. rewrite H in Hm. simpl in Hm.
    destruct (blank_inv r Hr) as [->|[t [r' [Ht [_ ->]]]]].
    + rewrite Hm, append_nil_r in Hs. now subst l.
    + exfalso. now apply (first_after_None _ _ Hnone t r').
  - intros H. apply whitespace_only_iff in H. unfold whitespace_only in H.
    unfold trim. destruct (trimStart s); [reflexivity|discriminate].
Qed.

Lemma js_or_spec (a b : string) : js_or a b = if decide (a = "") then b else a.
Proof. unfold js_or. destruct a; reflexivity. Qed.

(** C5, as the script has it.  An empty or white-space-only answer
    resolves to the base name of the working directory; any other answer
    resolves to itself with the white space on both sides removed, which
    is not empty.  The resolved name is empty in exactly one case: a blank
    answer in a working directory whose base name is empty. *)
Theorem name_resolution (answer : string) (targetDir : path) :
  let resolved := js_or (trim answer) (basename targetDir) in
  (blank answer → resolved = basename targetDir) ∧
  (¬ blank answer → resolved = trim answer ∧ resolved ≠ "") ∧
  (∃ l r, blank l ∧ blank r ∧ answer = l +:+ trim answer +:+ r) ∧
  (∀ t rest, t ∈ whitespace →
     trim answer ≠ t +:+ rest ∧ trim answer ≠ rest +:+ t) ∧
  (resolved = "" ↔ blank answer ∧ basename targetDir = "").
Proof.
  intros resolved. subst resolved. rewrite js_or_spec.
  destruct (trim_spec answer) as [Hsplit [Hstart Hend]].
  pose proof (trim_blank answer) as Hblank.
  destruct (decide (trim answer = "")) as [He|Hne].
  - repeat split; try tauto; auto.
  - repeat split; try tauto; auto.
Qed.

(** C5, where "never empty" fails: at the root of the file system the
    base name is empty, and a blank answer resolves to it.  The script
    then runs to its end and writes a manifest whose package name is the
    empty string. *)
Lemma name_resolution_empty :
  blank "  " ∧ basename [] = "" ∧ js_or (trim "  ") (basename []) = "" ∧
  let run := script [".git"; "pkg"] [] "  " quiet 4 (boot sample_root) in
  run.1 = Return tt ∧
  files run.2 !! ["package.json"] = Some (File (manifest_bytes "")).
Proof.
  split; [now apply whitespace_only_iff|].
  repeat split; vm_compute; reflexivity.
Qed.

(** ** Writing files *)

Lemma write_file_run (p : path) (data : list Byte.byte) (w : world) :
  files w !! dirname p = Some Dir →
  (files w !! p = None ∨ ∃ old, files w !! p = Some (File old)) →
  write_file p data w
  = (Return tt, {| files := <[p := File data]> (files w); trace := trace w |}).
Proof.
  intros Hparent Hp. unfold write_file, get_files, put_files, bind.
  rewrite Hparent. destruct Hp as [->|[old ->]]; reflexivity.
Qed.

Lemma write_file_Return (p : path) (data : list Byte.byte) (w w' : world) :
  write_file p data w = (Return tt, w') →
  w' = {| files := <[p := File data]> (files w); trace := trace w |}.
Proof.
  unfold write_file, get_files, put_files, bind, throw.
  destruct (files w !! p) as [[?|]|]; try discriminate;
    destruct (files w !! dirname p) as [[?|]|]; try discriminate; congruence.
Qed.

Lemma createProjectPackageJson_Return (targetDir : path) (serverName : string) (w w' : world) :
  createProjectPackageJson targetDir serverName w = (Return tt, w') →
  files w' = <[targetDir ++ ["package.json"] := File (manifest_bytes serverName)]> (files w).
Proof.
  unfold createProjectPackageJson, writeFileSync. rewrite bind_run.
  destruct (write_file _ _ w) as [[[]|e|c|] w1] eqn:Hw; try discriminate.
  apply write_file_Return in Hw. subst w1.
  unfold console_log, emit. simpl. intros [= <-]. reflexivity.
Qed.

(** C8. The manifest is a function of the project name and of nothing
    else: wherever and in whatever world [createProjectPackageJson] runs,
    what it writes to [package.json] is the serialisation of
    [projectPackageJson serverName], so two runs with one name write the
    same bytes.  The descriptor names the package after the project,
    declares the module entry point, and carries the fixed script table
    and the fixed dependency lists. *)
Theorem manifest_pure (serverName : string) (dir1 dir2 : path) (w1 w2 w1' w2' : world) :
  createProjectPackageJson dir1 serverName w1 = (Return tt, w1') →
  createProjectPackageJson dir2 serverName w2 = (Return tt, w2') →
  let pkg := projectPackageJson serverName in
  files w1' !! (dir1 ++ ["package.json"]) = Some (File (manifest_bytes serverName)) ∧
  files w2' !! (dir2 ++ ["package.json"]) = files w1' !! (dir1 ++ ["package.json"]) ∧
  member ["name"] pkg = Some (JString serverName) ∧
  member ["module"] pkg = Some (JString "src/index.ts") ∧
  member ["scripts"; "start"] pkg = Some (JString "node --loader ts-node/esm src/index.ts") ∧
  member ["scripts"; "start:bun"] pkg = Some (JString "bun run src/index.ts") ∧
  member ["scripts"; "build"] pkg = Some (JString "npm run build:bun || npm run build:tsc") ∧
  member ["scripts"; "build:tsc"] pkg
    = Some (JString "tsc --project tsconfig.json && chmod +x build/index.js") ∧
  member ["scripts"; "build:http"] pkg
    = Some (JString "npm run build:http:bun || npm run build:http:tsc") ∧
  member ["scripts"; "start:http"] pkg
    = Some (JString "node --loader ts-node/esm src/server/http-server.ts") ∧
  member ["scripts"; "dev"] pkg = Some (JString "nodemon --exec ts-node --esm src/index.ts") ∧
  member ["scripts"; "dev:bun"] pkg = Some (JString "bun --watch src/index.ts") ∧
  member ["scripts"; "dev:http"] pkg
    = Some (JString "nodemon --exec ts-node --esm src/server/http-server.ts") ∧
  member ["dependencies"] pkg
    = Some (JObject [ ("fastmcp", JString "^1.21.0"); ("cors", JString "^2.8.5");
                      ("zod", JString "^3.24.2") ]) ∧
  member ["devDependencies"] pkg
    = Some (JObject [ ("@types/bun", JString "latest"); ("@types/cors", JString "^2.8.17");
                      ("@types/node", JString "^20.11.0") ]).
Proof.
  intros H1 H2 pkg.
  apply createProjectPackageJson_Return in H1, H2.
  rewrite H1, H2, !lookup_insert_eq.
  repeat split; reflexivity.
Qed.

(** ** The control flow of [main] *)

Lemma bind_ext {A B} (m : M A) (f g : A → M B) (w : world) :
  (∀ a w', f a w' = g a w') → bind m f w = bind m g w.
Proof. intros H. unfold bind. destruct (m w) as [[a|e|c|] w']; auto. Qed.

Lemma try_catch_ext {A} (b1 b2 : M A) (h : error → M A) (w : world) :
  (∀ w', b1 w' = b2 w') → try_catch b1 h w = try_catch b2 h w.
Proof. intros H. unfold try_catch. now rewrite H. Qed.

Lemma bind_ret_l {A B} (a : A) (k : A → M B) (w : world) : bind (ret a) k w = k a w.
Proof. reflexivity. Qed.

Ltac peel := rewrite bind_assoc; apply bind_ext; intros ? ?.

Lemma main_split (rootDir targetDir : path) (answer : string)
    (subprocess : string → filesystem → filesystem * bool) (depth : nat) (w : world) :
  main rootDir targetDir answer subprocess depth w =
  (prelude rootDir targetDir ;;
   try_catch
     (serverName <- scaffold rootDir targetDir answer depth ;;
      installAndBuild targetDir subprocess ;;
      epilogue targetDir serverName)
     scaffold_failed) w.
Proof.
  unfold main, prelude. symmetry.
  do 6 peel. apply bind_ext. intros _ w1.
  apply try_catch_ext. intros w2. unfold scaffold.
  do 6 peel. now rewrite bind_ret_l.
Qed.

Lemma epilogue_run (targetDir : path) (serverName : string) (w : world) :
  ∃ evs, epilogue targetDir serverName w
         = (Return tt, {| files := files w; trace := trace w ++ evs |}) ∧
         Forall no_spawn evs.
Proof.
  eexists. split.
  - unfold epilogue, printColorMessage, console_log, rl_close, emit, bind. simpl.
    rewrite <- !app_assoc. reflexivity.
  - repeat constructor.
Qed.

Lemma scaffold_failed_run (e : error) (w : world) :
  ∃ evs, scaffold_failed e w
         = (Exit 1%Z, {| files := files w; trace := trace w ++ evs |}) ∧
         Forall no_spawn evs.
Proof.
  eexists. split.
  - unfold scaffold_failed, printColorMessage, console_log, rl_close, emit, bind,
      process_exit. simpl. rewrite <- !app_assoc. reflexivity.
  - repeat constructor.
Qed.

Lemma unexpected_run (e : error) (w : world) :
  ∃ evs, unexpected e w
         = (Exit 1%Z, {| files := files w; trace := trace w ++ evs |}) ∧
         Forall no_spawn evs.
Proof.
  eexists. split.
  - unfold unexpected, printColorMessage, console_log, rl_close, emit, bind,
      process_exit. simpl. rewrite <- !app_assoc. reflexivity.
  - repeat constructor.
Qed.

Lemma build_step_not_probe (c : string) :
  c ∈ build_steps → c ≠ "which bun" ∧ c ≠ "which npm".
Proof.
  unfold build_steps. rewrite !elem_of_cons, elem_of_nil.
  intros [->|[->|[->|[->|[]]]]]; split; discriminate.
Qed.

(** [installAndBuild] always returns normally; when one of its two steps
    fails, the warning is on the console. *)
Lemma installAndBuild_run (targetDir : path)
    (subprocess : string → filesystem → filesystem * bool) (w : world) :
  ∃ fs' evs,
    installAndBuild targetDir subprocess w
    = (Return tt, {| files := fs'; trace := trace w ++ evs |}) ∧
    (∀ c, c ∈ build_steps → Spawn c false ∈ evs → ∃ e, warning e ∈ evs).
Proof.
  unfold installAndBuild. rewrite bind_run, detectPackageManager_run.
  destruct (subprocess "which bun" (files w)) as [fs1 bun] eqn:Hbun.
  cbn [fst snd].
  assert (Hstep : ∀ (pm : string) (w1 : world) (evs0 : list event),
    trace w1 = trace w ++ evs0 →
    (∀ c, c ∈ build_steps → Spawn c false ∉ evs0) →
    ∃ fs' evs,
      try_catch
        (printColorMessage (nl +:+ "📦 Installing dependencies using " +:+ pm +:+ "...") blue ;;
         execSync subprocess (pm +:+ " install") ;;
         printColorMessage (nl +:+ "🔨 Building project...") blue ;;
         execSync subprocess (pm +:+ " run build") ;;
         printColorMessage (nl +:+ "✅ Dependencies installed and project built successfully!") green)
        (fun error =>
           printColorMessage (install_warning error) yellow ;;
           printColorMessage (nl +:+ "You can install dependencies and build manually:") yellow ;;
           console_log ("  cd " +:+ path_text targetDir) ;;
           console_log "  npm install" ;;
           console_log "  npm run build") w1
      = (Return tt, {| files := fs'; trace := trace w ++ evs |}) ∧
      (∀ c, c ∈ build_steps → Spawn c false ∈ evs → ∃ e, warning e ∈ evs)).
  { intros pm w1 evs0 Htr Hev0.
    unfold try_catch, printColorMessage, console_log, execSync, emit, bind,
      get_files, put_files, ret, throw. cbn [fst snd files trace].
    destruct (subprocess (pm +:+ " install") (files w1)) as [fs2 [|]];
      cbn [fst snd files trace].
    - destruct (subprocess (pm +:+ " run build") fs2) as [fs3 [|]];
        cbn [fst snd files trace]; rewrite Htr, <- !app_assoc;
        do 2 eexists; (split; [reflexivity|]).
      + intros c Hc Hin. exfalso.
        rewrite !elem_of_app, !list_elem_of_singleton in Hin.
        destruct Hin as [Hin|[Hin|[Hin|[Hin|[Hin|Hin]]]]];
          try discriminate; now apply (Hev0 c).
      + intros _ _ _. eexists. unfold warning.
        rewrite !elem_of_app, !list_elem_of_singleton.
        do 5 right. left. reflexivity.
    - rewrite Htr, <- !app_assoc. do 2 eexists. split; [reflexivity|].
      intros _ _ _. eexists. unfold warning.
      rewrite !elem_of_app, !list_elem_of_singleton.
      do 3 right. left. reflexivity. }
  destruct bun; cbv beta iota.
  - apply (Hstep "bun" _ [Spawn "which bun" true]); [reflexivity|].
    intros c Hc Hin. apply list_elem_of_singleton in Hin. discriminate.
  - apply (Hstep "npm" _ [Spawn "which bun" false;
                          Spawn "which npm" (subprocess "which npm" fs1).2]);
      [cbn [trace]; now rewrite <- app_assoc|].
    intros c Hc Hin. apply build_step_not_probe in Hc as [Hc1 Hc2].
    rewrite elem_of_cons, list_elem_of_singleton in Hin.
    destruct Hin as [Hin|Hin]; injection Hin; intros; congruence.
Qed.

(** ** What the stretches of [main] print and touch *)

Lemma emits_mkdir (p : path) (P : event → Prop) : emits (mkdirSync_recursive p) P.
Proof.
  apply emits_silent. intros w.
  unfold mkdirSync_recursive, get_files, put_files, bind, throw.
  destruct (mkdirp (files w) [] p); reflexivity.
Qed.

Lemma emits_write_file (p : path) (data : list Byte.byte) (P : event → Prop) :
  emits (write_file p data) P.
Proof.
  apply emits_silent. intros w.
  unfold write_file, get_files, put_files, bind, throw.
  destruct (files w !! p) as [[?|]|]; try reflexivity;
    destruct (files w !! dirname p) as [[?|]|]; reflexivity.
Qed.

Lemma emits_copyFileSync (src dest : path) (P : event → Prop) :
  emits (copyFileSync src dest) P.
Proof.
  intros w. unfold copyFileSync, get_files, bind, throw.
  destruct (files w !! src) as [[data|]|]; simpl;
    try (exists []; split; [now rewrite app_nil_r|constructor]).
  apply emits_write_file.
Qed.

Lemma isDirectoryEmpty_same (targetDir : path) (w : world) :
  (isDirectoryEmpty targetDir w).2 = w.
Proof.
  unfold isDirectoryEmpty, readdirSync, readdirSync_withFileTypes, get_files,
    bind, ret, throw.
  destruct (files w !! targetDir) as [[?|]|]; reflexivity.
Qed.

Lemma copyFiles_emits (fuel : nat) :
  ∀ source destination : path, emits (copyFiles fuel source destination) no_spawn.
Proof.
  induction fuel as [|fuel IH]; intros source destination; simpl.
  - now apply emits_silent.
  - apply steps_bind; [tc_solve|apply steps_existsSync; tc_solve|]. intros present.
    apply steps_bind; [tc_solve|apply steps_when; [tc_solve|apply emits_mkdir]|].
    intros _. apply steps_bind; [tc_solve|apply steps_readdir; tc_solve|]. intros entries.
    apply steps_forEach; [tc_solve|]. intros entry.
    destruct (excluded (name entry)); [now apply emits_silent|].
    destruct (isDirectory entry); [apply IH|].
    apply steps_bind; [tc_solve|apply emits_copyFileSync|].
    intros _. now apply emits_emit.
Qed.

Lemma prelude_emits (rootDir targetDir : path) :
  emits (prelude rootDir targetDir) no_spawn.
Proof.
  unfold prelude, printColorMessage, console_log.
  repeat first
    [ apply steps_same; [tc_solve|apply isDirectoryEmpty_same]
    | apply steps_existsSync; tc_solve
    | now apply emits_emit
    | now apply emits_silent
    | apply steps_when; [tc_solve|]
    | apply steps_bind; [tc_solve| |intros ?] ].
Qed.

Lemma scaffold_emits (rootDir targetDir : path) (answer : string) (depth : nat) :
  emits (scaffold rootDir targetDir answer depth) no_spawn.
Proof.
  unfold scaffold, promptUser, createProjectPackageJson, createCustomReadme,
    writeFileSync, printColorMessage, console_log.
  repeat first
    [ apply copyFiles_emits
    | apply emits_copyFileSync
    | apply emits_write_file
    | apply steps_existsSync; tc_solve
    | now apply emits_emit
    | now apply emits_silent
    | apply steps_when; [tc_solve|]
    | apply steps_forEach; [tc_solve|intros ?]
    | apply steps_bind; [tc_solve| |intros ?] ].
Qed.

(** The normal form of a run of the script: the guards, then the
    scaffolding, then the build and the closing messages, which cannot
    fail any more. *)
Lemma script_run (rootDir targetDir : path) (answer : string)
    (subprocess : string → filesystem → filesystem * bool) (depth : nat) (w : world) :
  script rootDir targetDir answer subprocess depth w =
  match prelude rootDir targetDir w with
  | (Return _, w1) =>
      match scaffold rootDir targetDir answer depth w1 with
      | (Return serverName, w2) =>
          (Return tt, (epilogue targetDir serverName
                         (installAndBuild targetDir subprocess w2).2).2)
      | (Throw e, w2) => (Exit 1%Z, (scaffold_failed e w2).2)
      | (Exit c, w2) => (Exit c, w2)
      | (OutOfFuel, w2) => (OutOfFuel, w2)
      end
  | (Throw e, w1) => (Exit 1%Z, (unexpected e w1).2)
  | (Exit c, w1) => (Exit c, w1)
  | (OutOfFuel, w1) => (OutOfFuel, w1)
  end.
Proof.
  unfold script. unfold try_catch at 1. rewrite main_split, bind_run.
  destruct (prelude rootDir targetDir w) as [[[]|e|c|] w1]; try reflexivity.
  unfold try_catch. rewrite bind_run.
  destruct (scaffold rootDir targetDir answer depth w1) as [[n|e|c|] w2];
    try reflexivity.
  rewrite bind_run.
  destruct (installAndBuild_run targetDir subprocess w2) as [fs' [evs [-> _]]].
  cbn [snd].
  now destruct (epilogue_run targetDir n {| files := fs'; trace := trace w2 ++ evs |})
    as [evs' [-> _]].
Qed.

Lemma no_spawn_in (evs : list event) (c : string) (ok : bool) :
  Forall no_spawn evs → Spawn c ok ∉ evs.
Proof.
  intros H Hin. rewrite Forall_forall in H. exact (H _ Hin).
Qed.

Ltac spawn_absurd :=
  match goal with
  | Hs : Forall no_spawn ?evs, Hin : Spawn _ _ ∈ ?evs |- _ =>
      exact (no_spawn_in _ _ _ Hs Hin)
  end.

(** C6. When the working directory holds any entry other than [.git]
    (one file [notes.txt], say), the script ends with [process.exit(1)]
    after printing its banner and the advice to use an empty directory:
    the file system is exactly what it was, and the trace holds console
    lines only, so no name was asked for and no command was run. *)
Theorem unsafe_destination_aborts (rootDir targetDir : path) (answer : string)
    (subprocess : string → filesystem → filesystem * bool) (depth : nat)
    (fs : filesystem) (n : string) :
  fs !! targetDir = Some Dir →
  n ≠ ".git" →
  is_Some (fs !! (targetDir ++ [n])) →
  script rootDir targetDir answer subprocess depth (boot fs) =
  (Exit 1%Z,
   {| files := fs;
      trace := map Log
        [ nl;
          colors cyan +:+ "🚀 Creating a new MCP server project..." +:+ colors_reset;
          nl;
          colors yellow +:+ "⚠️  The current directory is not empty!" +:+ colors_reset;
          "To avoid overwriting existing files, please run this command in an empty directory.";
          "You can create a new directory and run the command there:";
          nl +:+ "  mkdir my-mcp-server && cd my-mcp-server && npx @mcpdotdirect/create-mcp-server" +:+ nl ] |}).
Proof.
  intros Hdir Hne Hn. rewrite script_run. unfold prelude, boot.
  do 3 (erewrite bind_return; [|reflexivity]).
  erewrite bind_return; [|now apply isDirectoryEmpty_run].
  cbn [files]. pose proof (listing_other fs targetDir n Hne Hn) as Hv.
  destruct (map name (children fs targetDir)) as [|a [|b l]];
    [discriminate Hv|rewrite Hv|]; reflexivity.
Qed.

(** How a run ends, and what its trace holds: either it returns normally,
    and then only [installAndBuild] has called subprocesses, or it stops
    in the guards or the scaffolding, and then no subprocess was called. *)
Lemma script_outcome (rootDir targetDir : path) (answer : string)
    (subprocess : string → filesystem → filesystem * bool) (depth : nat)
    (fs : filesystem) :
  let run := script rootDir targetDir answer subprocess depth (boot fs) in
  (∀ other, (script rootDir targetDir answer other depth (boot fs)).1 = run.1) ∧
  ((run.1 = Return tt ∧
    ∃ before during after,
      trace run.2 = (before ++ during) ++ after ∧
      Forall no_spawn before ∧ Forall no_spawn after ∧
      (∀ c, c ∈ build_steps → Spawn c false ∈ during → ∃ e, warning e ∈ during)) ∨
   (run.1 ≠ Return tt ∧ Forall no_spawn (trace run.2))).
Proof.
  intros run. subst run. split; [intros other|]; rewrite !script_run;
    destruct (prelude_emits rootDir targetDir (boot fs)) as [evs1 [Ht1 Hs1]];
    destruct (prelude rootDir targetDir (boot fs)) as [[[]|e|c|] w1] eqn:Hpre;
    cbn [fst snd boot trace] in *; rewrite ?app_nil_l in Ht1;
    try reflexivity.
  - now destruct (scaffold rootDir targetDir answer depth w1) as [[name|e|c|] w2].
  - destruct (scaffold_emits rootDir targetDir answer depth w1) as [evs2 [Ht2 Hs2]].
    destruct (scaffold rootDir targetDir answer depth w1) as [[name|e|c|] w2] eqn:Hsc;
      cbn [fst snd] in *.
    + left. split; [reflexivity|].
      destruct (installAndBuild_run targetDir subprocess w2) as [fs3 [evs3 [-> Hwarn]]].
      cbn [snd].
      destruct (epilogue_run targetDir name {| files := fs3; trace := trace w2 ++ evs3 |})
        as [evs4 [-> Hs4]].
      cbn [snd trace]. exists (trace w2), evs3, evs4.
      split; [reflexivity|]. split; [|now split].
      rewrite Ht2, Ht1. now apply Forall_app.
    + right. split; [discriminate|].
      destruct (scaffold_failed_run e w2) as [evs3 [-> Hs3]]. cbn [snd trace].
      rewrite Ht2, Ht1. repeat apply Forall_app_2; assumption.
    + right. split; [discriminate|]. rewrite Ht2, Ht1. now apply Forall_app.
    + right. split; [discriminate|]. rewrite Ht2, Ht1. now apply Forall_app.
  - right. split; [discriminate|].
    destruct (unexpected_run e w1) as [evs3 [-> Hs3]]. cbn [snd trace].
    rewrite Ht1. now apply Forall_app.
  - right. split; [discriminate|]. now rewrite Ht1.
  - right. split; [discriminate|]. now rewrite Ht1.
Qed.

(** C7. A failing [install] or [build] command never decides how the
    script ends.  The exit status of a run does not depend on what the
    subprocesses do; whenever an install or build command fails, the
    script still returns normally, with status 0 and with the warning on
    the console; and a run that ends with status 1 has not called any
    subprocess at all: it stopped in the guards or in the scaffolding. *)
Theorem build_failure_is_not_fatal (rootDir targetDir : path) (answer : string)
    (subprocess : string → filesystem → filesystem * bool) (depth : nat)
    (fs : filesystem) :
  let run := script rootDir targetDir answer subprocess depth (boot fs) in
  (∀ other,
     exit_code (script rootDir targetDir answer other depth (boot fs)).1
     = exit_code run.1) ∧
  (∀ c, c ∈ build_steps → Spawn c false ∈ trace run.2 →
     run.1 = Return tt ∧ exit_code run.1 = Some 0%Z ∧ ∃ e, warning e ∈ trace run.2) ∧
  (exit_code run.1 = Some 1%Z → Forall no_spawn (trace run.2)).
Proof.
  intros run.
  destruct (script_outcome rootDir targetDir answer subprocess depth fs)
    as [Hsame Hends]. fold run in Hsame, Hends.
  split; [|split].
  - intros other. now rewrite Hsame.
  - intros c Hc Hin.
    destruct Hends as [[Hret [before [during [after [Htr [Hb [Ha Hwarn]]]]]]]|[_ Hno]].
    + rewrite Hret. repeat split. rewrite Htr in *.
      rewrite !elem_of_app in Hin. destruct Hin as [[Hin|Hin]|Hin].
      * exfalso. spawn_absurd.
      * destruct (Hwarn c Hc Hin) as [e He]. exists e. rewrite !elem_of_app. auto.
      * exfalso. spawn_absurd.
    + exfalso. spawn_absurd.
  - intros Hcode. destruct Hends as [[Hret _]|[_ Hno]]; [|assumption].
    rewrite Hret in Hcode. discriminate.
Qed.

(** ** Paths that do not meet *)

Lemma app_comparable (a x b y : path) :
  a ++ x = b ++ y → a `prefix_of` b ∨ b `prefix_of` a.
Proof.
  intros H. apply (prefix_weak_total a b (a ++ x)).
  - now exists x.
  - exists y. exact H.
Qed.

Lemma apart_neq (source destination r k : path) :
  apart source destination → source ++ r ≠ destination ++ k.
Proof.
  intros [H1 H2] H. destruct (app_comparable _ _ _ _ H); tauto.
Qed.

Lemma apart_not_prefix (source destination r k : path) :
  apart source destination → ¬ source ++ r `prefix_of` destination ++ k.
Proof.
  intros Ha [z Hz]. rewrite <- app_assoc in Hz. symmetry in Hz.
  now apply (apart_neq _ _ _ _ Ha) in Hz.
Qed.

Lemma apart_not_target (source destination r k : path) :
  apart source destination → ¬ copy_target (destination ++ k) (source ++ r).
Proof.
  intros Ha [Hpre|[r' [Heq _]]].
  - now apply (apart_not_prefix _ _ _ _ Ha) in Hpre.
  - rewrite <- app_assoc in Heq. now apply (apart_neq _ _ _ _ Ha) in Heq.
Qed.

Lemma apart_child (source destination : path) (n m : string) :
  apart source destination → apart (source ++ [n]) (destination ++ [m]).
Proof.
  intros Ha. split.
  - now apply apart_not_prefix.
  - intros [z Hz]. rewrite <- app_assoc in Hz.
    now apply (apart_neq _ _ _ _ Ha) in Hz.
Qed.

Lemma prefix_snoc (q p : path) (n : string) :
  q `prefix_of` p ++ [n] → q `prefix_of` p ∨ q = p ++ [n].
Proof.
  intros [k Hk]. induction k as [|c k' _] using rev_ind.
  - right. now rewrite app_nil_r in Hk.
  - left. exists k'. rewrite app_assoc in Hk.
    now apply app_inj_tail in Hk as [-> _].
Qed.

Lemma below_not_prefix (p : path) (n : string) (r : path) :
  ¬ p ++ n :: r `prefix_of` p.
Proof.
  intros H. apply prefix_length in H. rewrite length_app in H. simpl in H. lia.
Qed.

(** ** Creating the destination directory *)

Lemma mkdirp_spec (rest : path) :
  ∀ (fs : filesystem) (base : path),
  (∀ (r : path) data, r `prefix_of` rest → fs !! (base ++ r) ≠ Some (File data)) →
  ∃ fs', mkdirp fs base rest = Some fs' ∧
    (∀ r : path, r `prefix_of` rest → fs' !! (base ++ r) = Some Dir) ∧
    (∀ q : path, (∀ r : path, r `prefix_of` rest → q ≠ base ++ r) → fs' !! q = fs !! q).
Proof.
  induction rest as [|c rest IH]; intros fs base Hok.
  - exists (<[base := Dir]> fs). split; [|split].
    + simpl. specialize (Hok [] ). rewrite app_nil_r in Hok.
      destruct (fs !! base) as [[data|]|]; try reflexivity.
      now destruct (Hok data).
    + intros r Hr. apply prefix_nil_inv in Hr as ->.
      rewrite app_nil_r. apply lookup_insert_eq.
    + intros q Hq. apply lookup_insert_ne. intros <-.
      apply (Hq []); [reflexivity|now rewrite app_nil_r].
  - destruct (IH (<[base := Dir]> fs) (base ++ [c])) as [fs' [Hrun [Hdirs Hframe]]].
    { intros r data Hr. rewrite <- app_assoc. simpl.
      rewrite lookup_insert_ne.
      - apply Hok. now apply prefix_cons.
      - intros H. apply (f_equal length) in H. rewrite length_app in H. simpl in H. lia. }
    exists fs'. split; [|split].
    + simpl. specialize (Hok []). rewrite app_nil_r in Hok.
      destruct (fs !! base) as [[data|]|]; try assumption.
      now destruct (Hok data (prefix_nil _)).
    + intros r Hr. destruct r as [|c' r].
      * rewrite app_nil_r. rewrite Hframe; [apply lookup_insert_eq|].
        intros r _ H. apply (f_equal length) in H.
        rewrite !length_app in H. simpl in H. lia.
      * pose proof (prefix_cons_inv_1 _ _ _ _ Hr) as ->.
        apply prefix_cons_inv_2 in Hr.
        specialize (Hdirs r Hr). now rewrite <- app_assoc in Hdirs.
    + intros q Hq. rewrite Hframe.
      * apply lookup_insert_ne. intros <-.
        apply (Hq []); [apply prefix_nil|now rewrite app_nil_r].
      * intros r Hr ->. apply (Hq (c :: r)); [now apply prefix_cons|].
        now rewrite <- app_assoc.
Qed.

Lemma mkdirSync_run (p : path) (w : world) :
  no_file_above (files w) p →
  ∃ fs', mkdirSync_recursive p w = (Return tt, {| files := fs'; trace := trace w |}) ∧
    (∀ q : path, q `prefix_of` p → fs' !! q = Some Dir) ∧
    (∀ q : path, ¬ q `prefix_of` p → fs' !! q = files w !! q).
Proof.
  intros Hok. destruct (mkdirp_spec p (files w) []) as [fs' [Hrun [Hdirs Hframe]]].
  { intros r data Hr. now apply Hok. }
  exists fs'. split; [|split].
  - unfold mkdirSync_recursive, get_files, put_files, bind. now rewrite Hrun.
  - intros q Hq. now apply (Hdirs q).
  - intros q Hq. apply Hframe. intros r Hr ->. now apply Hq.
Qed.

(** ** [copyFiles] mirrors the tree *)

Lemma copyFiles_unfold (fuel : nat) (source destination : path) :
  copyFiles (S fuel) source destination =
  (present <- existsSync destination ;;
   when (negb present) (mkdirSync_recursive destination) ;;
   entries <- readdirSync_withFileTypes source ;;
   forEach entries (copy_entry fuel source destination)).
Proof. reflexivity. Qed.

Lemma tree_at_ancestor (fs : filesystem) (source r1 r2 : path) (n : string) :
  tree_at fs source →
  is_Some (fs !! (source ++ r1 ++ n :: r2)) → fs !! (source ++ r1) = Some Dir.
Proof.
  intros Ht. revert n. induction r2 as [|c r2 IH] using rev_ind; intros n H.
  - now apply (Ht r1 n).
  - apply (IH n). replace (source ++ r1 ++ n :: r2 ++ [c])
      with (source ++ (r1 ++ n :: r2) ++ [c]) in H
      by (now rewrite <- !app_assoc).
    apply Ht in H. rewrite H. eauto.
Qed.

Lemma tree_at_child (fs : filesystem) (source : path) (n : string) :
  tree_at fs source → tree_at fs (source ++ [n]).
Proof.
  intros Ht r m H. rewrite <- app_assoc in *. simpl in *. now apply (Ht (n :: r) m).
Qed.

Lemma shallow_child (fs : filesystem) (source : path) (n : string) (k : nat) :
  shallow fs source (S k) → shallow fs (source ++ [n]) k.
Proof.
  intros Hs r H. rewrite <- app_assoc in H. simpl in H.
  apply Hs in H. simpl in H. lia.
Qed.

Lemma tree_at_agree (fs fs' : filesystem) (source : path) :
  (∀ r : path, fs' !! (source ++ r) = fs !! (source ++ r)) →
  tree_at fs source → tree_at fs' source.
Proof. intros Heq Ht r n H. rewrite Heq in *. exact (Ht r n H). Qed.

Lemma shallow_agree (fs fs' : filesystem) (source : path) (k : nat) :
  (∀ r : path, fs' !! (source ++ r) = fs !! (source ++ r)) →
  shallow fs source k → shallow fs' source k.
Proof. intros Heq Hs r H. rewrite Heq in H. exact (Hs r H). Qed.

Section Level.

Variable fuel : nat.
Variables source destination : path.
Hypothesis deeper : copies fuel.
Hypothesis separate : apart source destination.

(** One entry of the loop: it writes below [destination/name] only, and
    what it leaves there mirrors [source/name]. *)
Lemma copy_entry_correct (e : Dirent) (w : world) (x : node) :
  files w !! (source ++ [name e]) = Some x →
  isDirectory e = is_dir x →
  (∀ q : path, q `prefix_of` destination → files w !! q = Some Dir) →
  vacant (files w) (destination ++ [name e]) →
  tree_at (files w) source →
  shallow (files w) source (S fuel) →
  ∃ w', copy_entry fuel source destination e w = (Return tt, w') ∧
    (∀ r : path, retained (name e :: r) = true →
       files w' !! (destination ++ name e :: r) = files w !! (source ++ name e :: r)) ∧
    (∀ q : path, (∀ r : path, q ≠ destination ++ name e :: r) →
       files w' !! q = files w !! q).
Proof.
  intros Hx Hkind Hdirs Hvac Htree Hshallow.
  unfold copy_entry, path_join. destruct (excluded (name e)) eqn:Hex.
  { exists w. split; [reflexivity|]. split; [|reflexivity].
    intros r Hr. rewrite retained_cons, Hex in Hr. discriminate. }
  destruct x as [data|]; simpl in Hkind; rewrite Hkind.
  - (* a regular file *)
    exists {| files := <[destination ++ [name e] := File data]> (files w);
              trace := trace w ++ [Log ("📄 Created " +:+ path_text (destination ++ [name e]))] |}.
    split; [|split].
    + unfold copyFileSync, get_files, bind. rewrite Hx.
      rewrite write_file_run; [reflexivity| |].
      * unfold dirname. rewrite removelast_last. now apply Hdirs.
      * left. specialize (Hvac []). now rewrite app_nil_r in Hvac.
    + intros r _. cbn [files]. destruct r as [|c r].
      * now rewrite lookup_insert_eq.
      * rewrite lookup_insert_ne.
        2:{ intros H. apply app_inv_head in H. discriminate. }
        specialize (Hvac (c :: r)). rewrite <- app_assoc in Hvac. simpl in Hvac.
        rewrite Hvac. symmetry.
        destruct (files w !! (source ++ name e :: c :: r)) as [y|] eqn:Hy; [|reflexivity].
        assert (Hd : files w !! (source ++ [name e]) = Some Dir).
        { apply (tree_at_ancestor _ _ [name e] r c Htree). simpl. eauto. }
        congruence.
    + intros q Hq. cbn [files]. apply lookup_insert_ne. intros <-. now apply (Hq []).
  - (* a directory *)
    destruct (deeper (source ++ [name e]) (destination ++ [name e]) w)
      as [w' [Hrun [Hcopy Hup]]]; try assumption.
    + now apply apart_child.
    + intros m r. specialize (Hvac (m :: r)). now rewrite <- app_assoc in *.
    + left. split.
      * specialize (Hvac []). now rewrite app_nil_r in Hvac.
      * intros q data Hq. destruct (prefix_snoc _ _ _ Hq) as [Hq'| ->].
        -- now rewrite Hdirs.
        -- specialize (Hvac []). rewrite app_nil_r in Hvac. now rewrite Hvac.
    + now apply tree_at_child.
    + now apply shallow_child.
    + exists w'. split; [assumption|]. split.
      * intros r Hr. rewrite retained_cons, Hex in Hr. simpl in Hr.
        specialize (Hcopy r Hr). now rewrite <- !app_assoc in Hcopy.
      * intros q Hq.
        destruct (decide (q `prefix_of` destination ++ [name e])) as [Hpre|Hpre].
        -- destruct (prefix_snoc _ _ _ Hpre) as [Hq'| ->].
           ++ rewrite (Hup q Hpre). symmetry. now apply Hdirs.
           ++ now destruct (Hq []).
        -- pose proof (copyFiles_only_writes fuel (source ++ [name e])
                         (destination ++ [name e]) w q) as Hframe.
           rewrite Hrun in Hframe. apply Hframe.
           intros [?|[r [-> _]]]; [tauto|].
           apply (Hq r). now rewrite <- app_assoc.
Qed.

Lemma copy_loop_correct (entries : list Dirent) :
  ∀ w : world,
  NoDup (map name entries) →
  (∀ e, e ∈ entries →
     ∃ x, files w !! (source ++ [name e]) = Some x ∧ isDirectory e = is_dir x) →
  (∀ q : path, q `prefix_of` destination → files w !! q = Some Dir) →
  (∀ e, e ∈ entries → vacant (files w) (destination ++ [name e])) →
  tree_at (files w) source →
  shallow (files w) source (S fuel) →
  ∃ w', forEach entries (copy_entry fuel source destination) w = (Return tt, w') ∧
    (∀ (n : string) (r : path), n ∈ map name entries → retained (n :: r) = true →
       files w' !! (destination ++ n :: r) = files w !! (source ++ n :: r)) ∧
    (∀ q : path, (∀ (n : string) (r : path), n ∈ map name entries → q ≠ destination ++ n :: r) →
       files w' !! q = files w !! q).
Proof.
  induction entries as [|e es IH]; intros w Hnd Hent Hdirs Hvac Htree Hshallow.
  { exists w. split; [reflexivity|]. split; [|reflexivity].
    intros n r Hn. now apply elem_of_nil in Hn. }
  simpl in Hnd. apply NoDup_cons in Hnd as [Hfresh Hnd].
  destruct (Hent e) as [x [Hx Hkind]]; [left|].
  destruct (copy_entry_correct e w x) as [w1 [Hrun [Hcopy Hframe]]];
    try assumption.
  { apply Hvac. left. }
  assert (Hsrc : ∀ r : path, files w1 !! (source ++ r) = files w !! (source ++ r)).
  { intros r. apply Hframe. intros r'. now apply apart_neq. }
  destruct (IH w1) as [w' [Hrun' [Hcopy' Hframe']]].
  - assumption.
  - intros e' He'. rewrite Hsrc. apply Hent. now right.
  - intros q Hq. rewrite Hframe; [now apply Hdirs|].
    intros r ->. now apply below_not_prefix in Hq.
  - intros e' He' r. rewrite Hframe; [apply Hvac; now right|].
    intros r' H. rewrite <- app_assoc in H. apply app_inv_head in H.
    simpl in H. injection H as Hname _. apply Hfresh. rewrite <- Hname.
    apply list_elem_of_fmap. eauto.
  - now apply (tree_at_agree (files w)).
  - now apply (shallow_agree (files w)).
  - exists w'. split; [|split].
    + simpl. rewrite (bind_return _ _ _ _ _ Hrun). exact Hrun'.
    + intros n r Hn Hr. simpl in Hn. apply elem_of_cons in Hn as [->|Hn].
      * rewrite Hframe'; [now apply Hcopy|].
        intros n' r' Hn' H. apply app_inv_head in H. congruence.
      * rewrite Hcopy' by assumption. apply Hsrc.
    + intros q Hq. rewrite Hframe'.
      * apply Hframe. intros r. apply Hq. left.
      * intros n r Hn. apply Hq. now right.
Qed.

End Level.

(** The first two statements of [copyFiles]: afterwards the destination
    and the directories above it exist, and nothing else has changed. *)
Lemma ensure_destination (destination : path) (w : world) :
  creatable (files w) destination →
  ∃ fs0,
    (∀ (B : Type) (k : M B),
       (present <- existsSync destination ;;
        when (negb present) (mkdirSync_recursive destination) ;;
        k) w = k {| files := fs0; trace := trace w |}) ∧
    (∀ q : path, q `prefix_of` destination → fs0 !! q = Some Dir) ∧
    (∀ q : path, ¬ q `prefix_of` destination → fs0 !! q = files w !! q).
Proof.
  intros [[Habsent Habove]|Hdirs].
  - destruct (mkdirSync_run destination w Habove) as [fs0 [Hrun [Hdirs Hframe]]].
    exists fs0. split; [|now split]. intros B k.
    unfold existsSync, get_files. rewrite !bind_run. cbn [ret].
    rewrite Habsent, bool_decide_false by (intros [? ?]; discriminate).
    cbn [negb when]. now rewrite (bind_return _ _ _ _ _ Hrun).
  - exists (files w). split; [|now split]. intros B k.
    unfold existsSync, get_files. rewrite !bind_run. cbn [ret].
    rewrite (Hdirs destination) by reflexivity.
    rewrite bool_decide_true by eauto.
    cbn [negb when ret]. now destruct w.
Qed.

Lemma copyFiles_correct (fuel : nat) : copies fuel.
Proof.
  induction fuel as [|fuel IH];
    intros source destination w Hsrc Hapart Hvac Hcre Htree Hshallow.
  { specialize (Hshallow []). rewrite app_nil_r in Hshallow.
    assert (0 < 0)%nat by (apply Hshallow; eauto). lia. }
  rewrite copyFiles_unfold.
  destruct (ensure_destination destination w Hcre) as [fs0 [-> [Hdirs Hframe]]].
  assert (Hsame : ∀ r : path, fs0 !! (source ++ r) = files w !! (source ++ r)).
  { intros r. apply Hframe. rewrite <- (app_nil_r destination).
    now apply apart_not_prefix. }
  unfold readdirSync_withFileTypes, get_files.
  rewrite !bind_run. cbn [files].
  pose proof (Hsame []) as Hsrc0. rewrite app_nil_r in Hsrc0.
  rewrite Hsrc0, Hsrc. cbn [ret].
  destruct (copy_loop_correct fuel source destination IH Hapart
              (children fs0 source) {| files := fs0; trace := trace w |})
    as [w' [Hrun [Hcopy Hrest]]]; cbn [files].
  - apply children_names_NoDup.
  - intros e He. now apply elem_of_children.
  - assumption.
  - intros e He r. rewrite Hframe.
    + destruct r as [|c r]; rewrite <- app_assoc; apply Hvac.
    + rewrite <- app_assoc. apply below_not_prefix.
  - now apply (tree_at_agree (files w)).
  - now apply (shallow_agree (files w)).
  - exists w'. split; [exact Hrun|]. cbn [files] in *. split.
    + intros r Hr. destruct r as [|n r].
      * rewrite !app_nil_r. rewrite Hrest.
        -- rewrite Hsrc. apply Hdirs. reflexivity.
        -- intros n r _ H. symmetry in H. rewrite <- (app_nil_r destination) in H at 2.
           apply app_inv_head in H. discriminate.
      * destruct (decide (n ∈ map name (children fs0 source))) as [Hn|Hn].
        -- rewrite Hcopy by assumption. apply Hsame.
        -- rewrite Hrest.
           2:{ intros n' r' Hn' H. apply app_inv_head in H. congruence. }
           rewrite Hframe by apply below_not_prefix. rewrite Hvac. symmetry.
           destruct (files w !! (source ++ n :: r)) as [y|] eqn:Hy; [|reflexivity].
           exfalso. apply Hn. apply elem_of_children_names.
           rewrite Hsame.
           destruct r as [|c r]; [eauto|].
           rewrite (tree_at_ancestor _ _ [n] r c Htree); simpl; eauto.
    + intros q Hq. rewrite Hrest; [now apply Hdirs|].
      intros n r _ ->. now apply below_not_prefix in Hq.
Qed.

(** ** Fuel and well-formedness *)

Lemma height_bound (fs : filesystem) (p : path) :
  is_Some (fs !! p) → (length p ≤ height fs)%nat.
Proof.
  intros [x Hx]. apply elem_of_map_to_list in Hx. unfold height.
  induction (map_to_list fs) as [|kv l IH]; [now apply elem_of_nil in Hx|].
  simpl. apply elem_of_cons in Hx as [<-|Hx]; [simpl; lia|].
  specialize (IH Hx). lia.
Qed.

Lemma shallow_height (fs : filesystem) (source : path) (fuel : nat) :
  (height fs < fuel)%nat → shallow fs source fuel.
Proof.
  intros Hfuel r Hr. apply height_bound in Hr. rewrite length_app in Hr. lia.
Qed.

Lemma well_formed_tree_at (fs : filesystem) (source : path) :
  well_formed fs → tree_at fs source.
Proof. intros Hwf r n H. rewrite app_assoc in *. now apply (Hwf _ n). Qed.

Lemma well_formed_checked (fs : filesystem) :
  well_formed_check fs = true → well_formed fs.
Proof.
  unfold well_formed_check. rewrite forallb_forall. intros Hall p n [x Hx].
  apply elem_of_map_to_list, list_elem_of_In, Hall in Hx.
  unfold parent_is_dir in Hx. simpl in Hx. rewrite removelast_last in Hx.
  destruct (p ++ [n]) eqn:Hp; [now destruct p|].
  destruct (fs !! p) as [[?|]|]; congruence.
Qed.

Lemma empty_below_checked (fs : filesystem) (p : path) :
  empty_below_check fs p = true → empty_below fs p.
Proof.
  unfold empty_below_check. rewrite forallb_forall. intros Hall n r.
  destruct (fs !! (p ++ n :: r)) as [x|] eqn:Hx; [|reflexivity].
  apply elem_of_map_to_list, list_elem_of_In, Hall in Hx.
  unfold not_below in Hx. simpl in Hx. now rewrite relative_to_app in Hx.
Qed.

Lemma well_formed_above (fs : filesystem) (p : path) :
  well_formed fs → is_Some (fs !! p) →
  ∀ q : path, q `prefix_of` p → q ≠ p → fs !! q = Some Dir.
Proof.
  intros Hwf Hp q [k ->] Hne. revert Hp.
  induction k as [|c k IH] using rev_ind; intros Hp.
  - now rewrite app_nil_r in Hne.
  - rewrite app_assoc in Hp. apply Hwf in Hp.
    destruct k as [|c' k'] using rev_ind; [now rewrite app_nil_r in Hp|].
    apply IH; [|rewrite Hp; eauto].
    intros H. rewrite <- (app_nil_r q) in H at 1. apply app_inv_head in H.
    now destruct k'.
Qed.

(** ** The replicated tree *)

(** C1. Take a well-formed file system, a source directory, and a
    destination away from it that is absent or empty and that [mkdir -p]
    can reach.  With enough fuel [copyFiles] returns normally, and then,
    below the destination, the regular files are exactly the files of the
    source tree whose relative path has no excluded component, each with
    the bytes of its original; no path with an excluded component at any
    level exists there; and the source tree is what it was. *)
Theorem copyFiles_replicates (source destination : path) (w : world) (fuel : nat) :
  well_formed (files w) →
  files w !! source = Some Dir →
  apart source destination →
  empty_below (files w) destination →
  no_file_above (files w) destination →
  (height (files w) < fuel)%nat →
  ∃ w', copyFiles fuel source destination w = (Return tt, w') ∧
    (∀ (r : path) (data : list Byte.byte),
       files w' !! (destination ++ r) = Some (File data) ↔
       files w !! (source ++ r) = Some (File data) ∧ retained r = true) ∧
    (∀ (r : path) (n : string), n ∈ r → n ∈ exclusion_set →
       files w' !! (destination ++ r) = None) ∧
    (∀ r : path, files w' !! (source ++ r) = files w !! (source ++ r)).
Proof.
  intros Hwf Hsrc Hapart Hempty Habove Hfuel.
  assert (Hcre : creatable (files w) destination).
  { destruct (files w !! destination) as [x|] eqn:Hx; [right|left; now split].
    intros q Hq. destruct (decide (q = destination)) as [->|Hne].
    - destruct x; [|assumption]. now destruct (Habove destination data).
    - apply (well_formed_above _ destination); eauto. }
  destruct (copyFiles_correct fuel source destination w) as [w' [Hrun [Hcopy _]]];
    try assumption.
  { now apply well_formed_tree_at. }
  { now apply shallow_height. }
  pose proof (copyFiles_only_writes fuel source destination w) as Hframe.
  rewrite Hrun in Hframe. cbn [snd] in Hframe.
  assert (Hout : ∀ r : path, retained r = false →
            files w' !! (destination ++ r) = None).
  { intros r Hr. rewrite Hframe by now apply unretained_not_target.
    destruct r as [|n r]; [discriminate|]. apply Hempty. }
  exists w'. split; [assumption|]. split; [|split].
  - intros r data. destruct (retained r) eqn:Hr.
    + rewrite Hcopy by assumption. tauto.
    + rewrite Hout by assumption. split; [discriminate|]. intros [_ ?]. discriminate.
  - intros r n Hn He. apply Hout. apply retained_false. eauto.
  - intros r. apply Hframe. rewrite <- (app_nil_r destination).
    now apply apart_not_target.
Qed.

Lemma copyFiles_replicates_witness :
  ∃ w', copyFiles 4 ["pkg"] ["work"] (boot sample0) = (Return tt, w') ∧
    (∀ (r : path) (data : list Byte.byte),
       files w' !! (["work"] ++ r) = Some (File data) ↔
       files (boot sample0) !! (["pkg"] ++ r) = Some (File data) ∧ retained r = true) ∧
    (∀ (r : path) (n : string), n ∈ r → n ∈ exclusion_set →
       files w' !! (["work"] ++ r) = None) ∧
    (∀ r : path, files w' !! (["pkg"] ++ r) = files (boot sample0) !! (["pkg"] ++ r)).
Proof.
  apply (copyFiles_replicates ["pkg"] ["work"] (boot sample0) 4).
  - apply well_formed_checked. vm_compute. reflexivity.
  - vm_compute. reflexivity.
  - split; intros [k Hk]; simpl in Hk; discriminate Hk.
  - apply empty_below_checked. vm_compute. reflexivity.
  - intros q data [k Hk] H. destruct q as [|a [|b q]].
    + vm_compute in H. discriminate H.
    + injection Hk as <- _. vm_compute in H. discriminate H.
    + discriminate Hk.
  - vm_compute. lia.
Defined.

(** ** The scenario of the specification *)



(** ** The theorems at work on the sample installation *)

Lemma isDirectoryEmpty_iff_witness :
  ∃ b, isDirectoryEmpty ["work"] (boot sample0) = (Return b, boot sample0) ∧
    (b = true ↔
       (∀ n : string, files (boot sample0) !! (["work"] ++ [n]) = None) ∨
       (∀ n : string, is_Some (files (boot sample0) !! (["work"] ++ [n])) ↔ n = ".git")) ∧
    (∀ n : string, n ≠ ".git" →
       is_Some (files (boot sample0) !! (["work"] ++ [n])) → b = false).
Proof.
  apply (isDirectoryEmpty_iff ["work"] (boot sample0)).
  vm_compute. reflexivity.
Defined.

Lemma isDirectoryEmpty_name_only_witness :
  isDirectoryEmpty ["work"] (boot sample_gitfile) = (Return true, boot sample_gitfile).
Proof.
  apply (isDirectoryEmpty_name_only ["work"] (boot sample_gitfile) ".git"
           (File (text "gitdir: elsewhere"))).
  - vm_compute. reflexivity.
  - vm_compute. reflexivity.
  - intros m Hm.
    assert (Hl : map name (children sample_gitfile ["work"]) = [".git"])
      by (vm_compute; reflexivity).
    now apply (listing_singleton sample_gitfile ["work"] ".git").
Defined.

Lemma unsafe_destination_aborts_witness :
  ∃ w', script ["pkg"] ["work"] "my-server" quiet 3 (boot sample_notes) = (Exit 1%Z, w') ∧
        files w' = sample_notes.
Proof.
  eexists. split.
  - apply (unsafe_destination_aborts ["pkg"] ["work"] "my-server" quiet 3
             sample_notes "notes.txt").
    + vm_compute. reflexivity.
    + discriminate.
    + vm_compute. eauto.
  - reflexivity.
Defined.

Lemma manifest_pure_witness :
  files (createProjectPackageJson ["work"] "demo" (boot sample0)).2
    !! ["work"; "package.json"]
  = files (createProjectPackageJson ["pkg"] "demo" (boot sample_notes)).2
    !! ["pkg"; "package.json"].
Proof.
  symmetry.
  apply (manifest_pure "demo" ["work"] ["pkg"] (boot sample0) (boot sample_notes)
           (createProjectPackageJson ["work"] "demo" (boot sample0)).2
           (createProjectPackageJson ["pkg"] "demo" (boot sample_notes)).2).
  - vm_compute. reflexivity.
  - vm_compute. reflexivity.
Defined.

Lemma build_failure_is_not_fatal_witness :
  let run := script ["pkg"] ["work"] "my-server" failing_install 3 (boot sample0) in
  run.1 = Return tt ∧ exit_code run.1 = Some 0%Z ∧ ∃ e, warning e ∈ trace run.2.
Proof.
  apply (proj1 (proj2 (build_failure_is_not_fatal ["pkg"] ["work"] "my-server"
                         failing_install 3 sample0)) "npm install").
  - apply list_elem_of_In. simpl. tauto.
  - apply list_elem_of_In. vm_compute.
    repeat first [left; reflexivity | right].
Defined.

(** * Further properties of the script *)

(** ** The guards *)

Lemma listing_safe (fs : filesystem) (dir : path) :
  (∀ n : string, is_Some (fs !! (dir ++ [n])) → n = ".git") →
  match map name (children fs dir) with
  | [] => true
  | [n] => String.eqb n ".git"
  | _ => false
  end = true.
Proof.
  intros Hsafe. pose proof (children_names_NoDup fs dir) as Hnd.
  assert (Hall : ∀ n, n ∈ map name (children fs dir) → n = ".git").
  { intros n Hn. now apply Hsafe, elem_of_children_names. }
  destruct (map name (children fs dir)) as [|a [|b l]]; [reflexivity|..].
  - apply String.eqb_eq, Hall. left.
  - exfalso. apply NoDup_cons in Hnd as [Hfresh _]. apply Hfresh.
    rewrite (Hall a) by left. rewrite (Hall b) by (right; left). left.
Qed.

(** With a safe working directory and the source directory in place, the
    guards print the banner and let the run go on. *)
Lemma prelude_passes (rootDir targetDir : path) (w : world) :
  files w !! targetDir = Some Dir →
  (∀ n : string, is_Some (files w !! (targetDir ++ [n])) → n = ".git") →
  is_Some (files w !! sourceDir rootDir) →
  prelude rootDir targetDir w
  = (Return tt, {| files := files w; trace := trace w ++ banner |}).
Proof.
  intros Hdir Hsafe Hsrc. unfold prelude.
  do 3 (erewrite bind_return; [|reflexivity]).
  erewrite bind_return; [|now apply isDirectoryEmpty_run].
  cbn [files]. rewrite (listing_safe _ _ Hsafe). cbn [negb when].
  erewrite bind_return; [|reflexivity].
  unfold existsSync, get_files. rewrite !bind_run. cbn [ret files].
  rewrite bool_decide_true by assumption. cbn [negb when ret trace].
  unfold banner. simpl. now rewrite <- !app_assoc.
Qed.

(** X1. When the working directory is safe but the package has no [src]
    directory, the script ends with [process.exit(1)] after the banner and
    three lines about a broken installation: the file system is what it
    was, no name was asked for and no command was run. *)
Theorem missing_source_aborts (rootDir targetDir : path) (answer : string)
    (subprocess : string → filesystem → filesystem * bool) (depth : nat)
    (fs : filesystem) :
  fs !! targetDir = Some Dir →
  (∀ n : string, is_Some (fs !! (targetDir ++ [n])) → n = ".git") →
  fs !! (rootDir ++ ["src"]) = None →
  script rootDir targetDir answer subprocess depth (boot fs) =
  (Exit 1%Z,
   {| files := fs;
      trace := banner ++ map Log
        [ colors red +:+ "⚠️  Source directory not found!" +:+ colors_reset;
          "This is likely an issue with the package installation.";
          "Please report this issue at: " +:+ issues_url ] |}).
Proof.
  intros Hdir Hsafe Hsrc. rewrite script_run. unfold prelude, boot.
  do 3 (erewrite bind_return; [|reflexivity]).
  erewrite bind_return; [|now apply isDirectoryEmpty_run].
  cbn [files]. rewrite (listing_safe _ _ Hsafe). cbn [negb when].
  erewrite bind_return; [|reflexivity].
  unfold existsSync, get_files. rewrite !bind_run. cbn [ret files].
  unfold sourceDir, path_join.
  rewrite Hsrc, bool_decide_false by (intros [? ?]; discriminate).
  reflexivity.
Qed.

Lemma missing_source_aborts_witness :
  (script ["elsewhere"] ["work"] "my-server" quiet 3 (boot sample_gitfile)).1 = Exit 1%Z ∧
  files (script ["elsewhere"] ["work"] "my-server" quiet 3 (boot sample_gitfile)).2
  = sample_gitfile.
Proof.
  rewrite (missing_source_aborts ["elsewhere"] ["work"] "my-server" quiet 3 sample_gitfile).
  - split; reflexivity.
  - vm_compute. reflexivity.
  - intros n Hn.
    assert (Hl : map name (children sample_gitfile ["work"]) = [".git"])
      by (vm_compute; reflexivity).
    now apply (listing_singleton sample_gitfile ["work"] ".git").
  - vm_compute. reflexivity.
Defined.

(** ** How a run can end *)

Lemma exits_with_weaken {A} (m : M A) (S S' : Z → Prop) :
  (∀ c, S c → S' c) → exits_with S m → exits_with S' m.
Proof. intros Hsub Hm w c H. apply Hsub. now apply (Hm w). Qed.


Lemma exits_with_try_catch {A} (body : M A) (handler : error → M A) (S : Z → Prop) :
  exits_with S body → (∀ e, exits_with S (handler e)) →
  exits_with S (try_catch body handler).
Proof.
  intros Hb Hh w c. unfold try_catch. specialize (Hb w).
  destruct (body w) as [[a|e|c'|] w'] eqn:Hbw; cbn [fst] in *; try discriminate.
  - apply Hh.
  - intros [= <-]. now apply Hb.
Qed.














(** ** The order of the subprocess calls *)

Lemma spawned_app (evs1 evs2 : list event) :
  spawned (evs1 ++ evs2) = spawned evs1 ++ spawned evs2.
Proof.
  apply omap_app.
Qed.

(** X3. [installAndBuild] probes for the package manager, then runs
    [install] and, only if that succeeded, [run build], both with the
    manager the probe chose; a failed install is never followed by a build.
    It returns normally in every case, leaving the file system as the last
    command it ran left it. *)
Theorem installAndBuild_sequence (targetDir : path)
    (subprocess : string → filesystem → filesystem * bool) (w : world) :
  let bun := subprocess "which bun" (files w) in
  let npm := subprocess "which npm" bun.1 in
  let pm := if bun.2 then "bun" else "npm" in
  let probes :=
    if bun.2 then [("which bun", true)]
    else [("which bun", false); ("which npm", npm.2)] in
  let install := subprocess (pm +:+ " install") (if bun.2 then bun.1 else npm.1) in
  let build := subprocess (pm +:+ " run build") install.1 in
  let run := installAndBuild targetDir subprocess w in
  run.1 = Return tt ∧
  files run.2 = (if install.2 then build.1 else install.1) ∧
  spawned (trace run.2)
  = spawned (trace w) ++ probes ++ [(pm +:+ " install", install.2)]
    ++ (if install.2 then [(pm +:+ " run build", build.2)] else []).
Proof.
  cbv zeta. unfold installAndBuild. rewrite bind_run, detectPackageManager_run.
  destruct (subprocess "which bun" (files w)) as [fs1 [|]]; cbn [fst snd].
  - unfold try_catch, printColorMessage, console_log, execSync, emit, bind,
      get_files, put_files, ret, throw. cbn [fst snd files trace].
    destruct (subprocess ("bun" +:+ " install") fs1) as [fs2 [|]];
      cbn [fst snd files trace].
    + destruct (subprocess ("bun" +:+ " run build") fs2) as [fs3 [|]];
        cbn [fst snd files trace]; repeat split;
        rewrite !spawned_app; cbn [spawned omap]; now rewrite !app_nil_r, <- !app_assoc.
    + repeat split. rewrite !spawned_app. cbn [spawned omap].
      now rewrite !app_nil_r, <- !app_assoc.
  - destruct (subprocess "which npm" fs1) as [fs1' npm_ok]; cbn [fst snd].
    unfold try_catch, printColorMessage, console_log, execSync, emit, bind,
      get_files, put_files, ret, throw. cbn [fst snd files trace].
    destruct (subprocess ("npm" +:+ " install") fs1') as [fs2 [|]];
      cbn [fst snd files trace].
    + destruct (subprocess ("npm" +:+ " run build") fs2) as [fs3 [|]];
        cbn [fst snd files trace]; repeat split;
        rewrite !spawned_app; cbn [spawned omap]; now rewrite !app_nil_r, <- !app_assoc.
    + repeat split. rewrite !spawned_app. cbn [spawned omap].
      now rewrite !app_nil_r, <- !app_assoc.
Qed.

(** ** Copying into a destination that holds files already *)

Lemma snoc_app (p : path) (n : string) (r : path) : (p ++ [n]) ++ r = p ++ n :: r.
Proof. now rewrite <- app_assoc. Qed.

Lemma file_has_no_children (fs : filesystem) (source : path) (n c : string)
    (r : path) (data : list Byte.byte) :
  tree_at fs source → fs !! (source ++ [n]) = Some (File data) →
  fs !! (source ++ n :: c :: r) = None.
Proof.
  intros Htree Hfile.
  destruct (fs !! (source ++ n :: c :: r)) as [y|] eqn:Hy; [|reflexivity].
  assert (Hd : fs !! (source ++ [n]) = Some Dir).
  { apply (tree_at_ancestor _ _ [n] r c Htree). simpl. eauto. }
  congruence.
Qed.

Section Over.

Variable fuel : nat.
Variables source destination : path.
Hypothesis deeper : copies_over fuel.
Hypothesis separate : apart source destination.

Lemma copy_entry_over (e : Dirent) (w : world) (x : node) :
  files w !! (source ++ [name e]) = Some x →
  isDirectory e = is_dir x →
  (∀ q : path, q `prefix_of` destination → files w !! q = Some Dir) →
  (∀ r : path, retained (name e :: r) = true →
     compatible (files w !! (source ++ name e :: r))
                (files w !! (destination ++ name e :: r))) →
  tree_at (files w) source →
  shallow (files w) source (S fuel) →
  ∃ w', copy_entry fuel source destination e w = (Return tt, w') ∧
    (∀ r : path, reached (files w) source (name e :: r) →
       files w' !! (destination ++ name e :: r) = files w !! (source ++ name e :: r)) ∧
    (∀ q : path,
       (∀ r : path, reached (files w) source (name e :: r) →
          q ≠ destination ++ name e :: r) →
       files w' !! q = files w !! q) ∧
    (∃ rs : list path,
       trace w' = trace w ++ map (created destination) rs ∧ NoDup rs ∧
       ∀ r : path, r ∈ rs ↔
         ∃ r', r = name e :: r' ∧ retained_file (files w) source r).
Proof.
  intros Hx Hkind Hdirs Hfit Htree Hshallow.
  unfold copy_entry, path_join. destruct (excluded (name e)) eqn:Hex.
  { exists w. split; [reflexivity|]. split; [|split; [reflexivity|]].
    - intros r [Hr _]. rewrite retained_cons, Hex in Hr. discriminate.
    - exists []. split; [now rewrite app_nil_r|]. split; [constructor|].
      intros r. split; [intros H; now apply elem_of_nil in H|].
      intros [r' [-> [Hr _]]]. rewrite retained_cons, Hex in Hr. discriminate. }
  assert (Hself : retained [name e] = true) by now rewrite retained_cons, Hex.
  destruct x as [data|]; simpl in Hkind; rewrite Hkind.
  - (* a regular file *)
    exists {| files := <[destination ++ [name e] := File data]> (files w);
              trace := trace w ++ [created destination [name e]] |}.
    split; [|split; [|split]].
    + unfold copyFileSync, get_files, bind. rewrite Hx.
      rewrite write_file_run; [reflexivity| |].
      * unfold dirname. rewrite removelast_last. now apply Hdirs.
      * specialize (Hfit [] Hself). rewrite Hx in Hfit.
        destruct (files w !! (destination ++ [name e])) as [[old|]|]; eauto.
        destruct Hfit.
    + intros r [_ [y Hy]]. cbn [files]. destruct r as [|c r].
      * now rewrite lookup_insert_eq.
      * now rewrite (file_has_no_children _ _ _ _ _ _ Htree Hx) in Hy.
    + intros q Hq. cbn [files]. apply lookup_insert_ne. intros <-.
      apply (Hq []); [|reflexivity]. split; [assumption|]. rewrite Hx. eauto.
    + exists [[name e]]. split; [reflexivity|]. split; [repeat constructor; apply not_elem_of_nil|].
      intros r. rewrite list_elem_of_singleton. split.
      * intros ->. exists []. split; [reflexivity|]. split; eauto.
      * intros [r' [-> [_ [y Hy]]]]. destruct r' as [|c r']; [reflexivity|].
        now rewrite (file_has_no_children _ _ _ _ _ _ Htree Hx) in Hy.
  - (* a directory *)
    destruct (deeper (source ++ [name e]) (destination ++ [name e]) w)
      as [w' [Hrun [Hcopy [Hup [Hframe [rs [Htrace [Hnd Hrs]]]]]]]]; try assumption.
    + now apply apart_child.
    + specialize (Hfit [] Hself). rewrite Hx in Hfit.
      destruct (files w !! (destination ++ [name e])) as [[old|]|] eqn:Hd;
        [destruct Hfit|right|left].
      * intros q Hq. destruct (prefix_snoc _ _ _ Hq) as [Hq'| ->]; auto.
      * split; [exact Hd|]. intros q data Hq.
        destruct (prefix_snoc _ _ _ Hq) as [Hq'| ->]; [now rewrite Hdirs|now rewrite Hd].
    + intros r Hr. rewrite !snoc_app. apply Hfit.
      now rewrite retained_cons, Hex.
    + now apply tree_at_child.
    + now apply shallow_child.
    + exists w'. split; [assumption|]. split; [|split].
      * intros r [Hr Hs].
        rewrite <- (snoc_app destination), <- (snoc_app source). apply Hcopy.
        split; [|now rewrite snoc_app].
        now rewrite retained_cons, Hex in Hr.
      * intros q Hq.
        destruct (decide (q `prefix_of` destination ++ [name e])) as [Hpre|Hpre].
        -- destruct (prefix_snoc _ _ _ Hpre) as [Hq'| ->].
           ++ rewrite (Hup q Hpre). symmetry. now apply Hdirs.
           ++ destruct (Hq []); [|reflexivity]. split; [assumption|].
              rewrite Hx. eauto.
        -- apply Hframe; [assumption|]. intros r [Hr Hs] ->.
           apply (Hq r); [|apply snoc_app]. split.
           ++ now rewrite retained_cons, Hex.
           ++ now rewrite <- snoc_app.
      * exists (map (cons (name e)) rs). split; [|split].
        -- rewrite Htrace. f_equal. rewrite map_map. apply map_ext.
           intros r. unfold created. now rewrite snoc_app.
        -- apply NoDup_fmap_2; [|assumption]. intros a b H. congruence.
        -- intros r. rewrite list_elem_of_fmap. split.
           ++ intros [r' [-> Hin]]. exists r'. split; [reflexivity|].
              apply Hrs in Hin as [Hr [data Hdata]]. split.
              ** now rewrite retained_cons, Hex.
              ** exists data. now rewrite <- snoc_app.
           ++ intros [r' [-> [Hr [data Hdata]]]]. exists r'. split; [reflexivity|].
              apply Hrs. split.
              ** now rewrite retained_cons, Hex in Hr.
              ** exists data. now rewrite snoc_app.
Qed.

Lemma copy_loop_over (entries : list Dirent) :
  ∀ w : world,
  NoDup (map name entries) →
  (∀ e, e ∈ entries →
     ∃ x, files w !! (source ++ [name e]) = Some x ∧ isDirectory e = is_dir x) →
  (∀ q : path, q `prefix_of` destination → files w !! q = Some Dir) →
  (∀ e (r : path), e ∈ entries → retained (name e :: r) = true →
     compatible (files w !! (source ++ name e :: r))
                (files w !! (destination ++ name e :: r))) →
  tree_at (files w) source →
  shallow (files w) source (S fuel) →
  ∃ w', forEach entries (copy_entry fuel source destination) w = (Return tt, w') ∧
    (∀ (n : string) (r : path), n ∈ map name entries →
       reached (files w) source (n :: r) →
       files w' !! (destination ++ n :: r) = files w !! (source ++ n :: r)) ∧
    (∀ q : path,
       (∀ (n : string) (r : path), n ∈ map name entries →
          reached (files w) source (n :: r) → q ≠ destination ++ n :: r) →
       files w' !! q = files w !! q) ∧
    (∃ rs : list path,
       trace w' = trace w ++ map (created destination) rs ∧ NoDup rs ∧
       ∀ r : path, r ∈ rs ↔
         ∃ (n : string) (r' : path),
           r = n :: r' ∧ n ∈ map name entries ∧ retained_file (files w) source r).
Proof.
  induction entries as [|e es IH]; intros w Hnd Hent Hdirs Hfit Htree Hshallow.
  { exists w. split; [reflexivity|]. split; [|split; [reflexivity|]].
    - intros n r Hn. now apply elem_of_nil in Hn.
    - exists []. split; [now rewrite app_nil_r|]. split; [constructor|].
      intros r. split; [intros H; now apply elem_of_nil in H|].
      intros [n [r' [_ [Hn _]]]]. now apply elem_of_nil in Hn. }
  simpl in Hnd. apply NoDup_cons in Hnd as [Hfresh Hnd].
  destruct (Hent e) as [x [Hx Hkind]]; [left|].
  destruct (copy_entry_over e w x) as [w1 [Hrun [Hcopy [Hframe [rs1 [Htr1 [Hnd1 Hrs1]]]]]]];
    try assumption.
  { intros r. apply Hfit. left. }
  assert (Hsrc : ∀ r : path, files w1 !! (source ++ r) = files w !! (source ++ r)).
  { intros r. apply Hframe. intros r' _. now apply apart_neq. }
  assert (Hother : ∀ (m : string) (r : path), m ∈ map name es →
            files w1 !! (destination ++ m :: r) = files w !! (destination ++ m :: r)).
  { intros m r Hm. apply Hframe. intros r' _ H. apply app_inv_head in H.
    injection H as -> _. contradiction. }
  destruct (IH w1) as [w' [Hrun' [Hcopy' [Hframe' [rs2 [Htr2 [Hnd2 Hrs2]]]]]]].
  - assumption.
  - intros e' He'. rewrite Hsrc. apply Hent. now right.
  - intros q Hq. rewrite Hframe; [now apply Hdirs|].
    intros r _ ->. now apply below_not_prefix in Hq.
  - intros e' r He' Hr. rewrite Hsrc, Hother.
    + apply Hfit; [now right|assumption].
    + apply list_elem_of_fmap. eauto.
  - now apply (tree_at_agree (files w)).
  - now apply (shallow_agree (files w)).
  - exists w'. split; [|split; [|split]].
    + simpl. rewrite (bind_return _ _ _ _ _ Hrun). exact Hrun'.
    + intros n r Hn Hreach. simpl in Hn. apply elem_of_cons in Hn as [->|Hn].
      * rewrite Hframe'; [now apply Hcopy|].
        intros n' r' Hn' _ H. apply app_inv_head in H. congruence.
      * rewrite Hcopy'; [apply Hsrc|assumption|].
        destruct Hreach as [Hr Hs]. split; [assumption|]. now rewrite Hsrc.
    + intros q Hq. rewrite Hframe'.
      * apply Hframe. intros r Hreach. apply Hq; [left|assumption].
      * intros n r Hn [Hr Hs]. apply Hq; [now right|].
        split; [assumption|]. now rewrite <- Hsrc.
    + exists (rs1 ++ rs2). split; [|split].
      * rewrite Htr2, Htr1, map_app. now rewrite app_assoc.
      * apply NoDup_app. split; [assumption|]. split; [|assumption].
        intros r H1 H2. apply Hrs1 in H1 as [r1 [-> _]].
        apply Hrs2 in H2 as [n [r2 [[= <- _] [Hn _]]]]. contradiction.
      * intros r. rewrite elem_of_app, Hrs1, Hrs2. simpl. split.
        -- intros [[r' [-> Hfile]]|[n [r' [-> [Hn [Hr [data Hdata]]]]]]].
           ++ exists (name e), r'. split; [reflexivity|]. split; [left|assumption].
           ++ exists n, r'. split; [reflexivity|]. split; [now right|].
              split; [assumption|]. exists data. now rewrite <- Hsrc.
        -- intros [n [r' [-> [Hn [Hr [data Hdata]]]]]].
           apply elem_of_cons in Hn as [->|Hn].
           ++ left. exists r'. split; [reflexivity|]. split; eauto.
           ++ right. exists n, r'. split; [reflexivity|]. split; [assumption|].
              split; [assumption|]. exists data. now rewrite Hsrc.
Qed.

End Over.

Lemma copyFiles_over (fuel : nat) : copies_over fuel.
Proof.
  induction fuel as [|fuel IH];
    intros source destination w Hsrc Hapart Hcre Hfit Htree Hshallow.
  { specialize (Hshallow []). rewrite app_nil_r in Hshallow.
    assert (0 < 0)%nat by (apply Hshallow; eauto). lia. }
  rewrite copyFiles_unfold.
  destruct (ensure_destination destination w Hcre) as [fs0 [-> [Hdirs Hframe]]].
  assert (Hsame : ∀ r : path, fs0 !! (source ++ r) = files w !! (source ++ r)).
  { intros r. apply Hframe. rewrite <- (app_nil_r destination).
    now apply apart_not_prefix. }
  unfold readdirSync_withFileTypes, get_files.
  rewrite !bind_run. cbn [files].
  pose proof (Hsame []) as Hsrc0. rewrite app_nil_r in Hsrc0.
  rewrite Hsrc0, Hsrc. cbn [ret].
  destruct (copy_loop_over fuel source destination IH Hapart
              (children fs0 source) {| files := fs0; trace := trace w |})
    as [w' [Hrun [Hcopy [Hrest [rs [Htrace [Hnd Hrs]]]]]]]; cbn [files].
  - apply children_names_NoDup.
  - intros e He. now apply elem_of_children.
  - assumption.
  - intros e r He Hr. rewrite Hsame, Hframe by apply below_not_prefix.
    now apply Hfit.
  - now apply (tree_at_agree (files w)).
  - now apply (shallow_agree (files w)).
  - assert (Hlisted : ∀ (n : string) (r : path),
              is_Some (files w !! (source ++ n :: r)) →
              n ∈ map name (children fs0 source)).
    { intros n r Hs. apply elem_of_children_names. rewrite Hsame.
      destruct r as [|c r]; [assumption|].
      rewrite (tree_at_ancestor _ _ [n] r c Htree); simpl; eauto. }
    exists w'. split; [exact Hrun|]. cbn [files trace] in *.
    split; [|split; [|split]].
    + intros r [Hr Hs]. destruct r as [|n r].
      * rewrite !app_nil_r. rewrite Hrest.
        -- rewrite Hsrc. apply Hdirs. reflexivity.
        -- intros n r _ _ H. symmetry in H. rewrite <- (app_nil_r destination) in H at 2.
           apply app_inv_head in H. discriminate.
      * rewrite Hcopy.
        -- apply Hsame.
        -- now apply (Hlisted n r).
        -- split; [assumption|]. now rewrite Hsame.
    + intros q Hq. rewrite Hrest; [now apply Hdirs|].
      intros n r _ _ ->. now apply below_not_prefix in Hq.
    + intros q Hpre Hq. rewrite Hrest; [now apply Hframe|].
      intros n r _ [Hr Hs]. apply Hq. split; [assumption|]. now rewrite <- Hsame.
    + exists rs. split; [assumption|]. split; [assumption|].
      intros r. rewrite Hrs. split.
      * intros [n [r' [-> [_ [Hr [data Hdata]]]]]]. split; [assumption|].
        exists data. now rewrite <- Hsame.
      * intros [Hr [data Hdata]]. destruct r as [|n r'].
        { rewrite app_nil_r in Hdata. congruence. }
        exists n, r'. split; [reflexivity|]. split.
        -- apply (Hlisted n r'). rewrite Hdata. eauto.
        -- split; [assumption|]. exists data. now rewrite Hsame.
Qed.

Lemma fits_checked (fs : filesystem) (source destination : path) :
  fits_check fs source destination = true → fits fs source destination.
Proof.
  unfold fits_check. rewrite forallb_forall. intros Hall r Hr.
  destruct (fs !! (source ++ r)) as [x|] eqn:Hx; [|exact I].
  apply elem_of_map_to_list, list_elem_of_In, Hall in Hx.
  unfold fits_at in Hx. cbn [fst snd] in Hx.
  rewrite relative_to_app, Hr in Hx.
  destruct x, (fs !! (destination ++ r)) as [[?|]|];
    first [exact I | discriminate Hx].
Qed.

Lemma creatable_of_well_formed (fs : filesystem) (destination : path) :
  well_formed fs → no_file_above fs destination → creatable fs destination.
Proof.
  intros Hwf Habove.
  destruct (fs !! destination) as [x|] eqn:Hx; [right|left; now split].
  intros q Hq. destruct (decide (q = destination)) as [->|Hne].
  - destruct x; [|assumption]. now destruct (Habove destination data).
  - apply (well_formed_above _ destination); eauto.
Qed.

(** X4. [copyFiles] into a destination that is already populated
    overwrites and merges: given a well-formed file system, a source
    directory, a destination away from it that holds no file where the
    source has a directory and no directory where the source has a file,
    and enough fuel, it returns normally; every source path with no
    excluded component is then mirrored in the destination, a file that
    stood there being replaced by the bytes of the source; and whatever
    the destination held at paths the source does not have, or at paths
    with an excluded component, is still there. *)
Theorem copyFiles_overwrites (source destination : path) (w : world) (fuel : nat) :
  well_formed (files w) →
  files w !! source = Some Dir →
  apart source destination →
  no_file_above (files w) destination →
  fits (files w) source destination →
  (height (files w) < fuel)%nat →
  ∃ w', copyFiles fuel source destination w = (Return tt, w') ∧
    (∀ r : path, retained r = true → is_Some (files w !! (source ++ r)) →
       files w' !! (destination ++ r) = files w !! (source ++ r)) ∧
    (∀ r : path, retained r = false ∨ files w !! (source ++ r) = None →
       files w' !! (destination ++ r) = files w !! (destination ++ r)) ∧
    (∀ r : path, files w' !! (source ++ r) = files w !! (source ++ r)).
Proof.
  intros Hwf Hsrc Hapart Habove Hfit Hfuel.
  destruct (copyFiles_over fuel source destination w)
    as [w' [Hrun [Hcopy [_ [Hframe _]]]]]; try assumption.
  { now apply creatable_of_well_formed. }
  { now apply well_formed_tree_at. }
  { now apply shallow_height. }
  exists w'. split; [assumption|]. split; [|split].
  - intros r Hr Hs. apply Hcopy. now split.
  - intros r Hr. destruct r as [|n r].
    { rewrite app_nil_r in Hr. destruct Hr as [Hr|Hr]; [discriminate|congruence]. }
    apply Hframe; [apply below_not_prefix|].
    intros r' [Hr' Hs'] H. apply app_inv_head in H. subst r'.
    destruct Hr as [Hr|Hr]; [congruence|]. rewrite Hr in Hs'. now destruct Hs'.
  - intros r. apply Hframe.
    + rewrite <- (app_nil_r destination). now apply apart_not_prefix.
    + intros r' _. now apply apart_neq.
Qed.

Lemma copyFiles_overwrites_witness :
  ∃ w', copyFiles 5 ["pkg"; "src"] ["work"; "src"] (boot sample_stale) = (Return tt, w') ∧
    files w' !! ["work"; "src"; "index.ts"] = Some (File (text "export {}")) ∧
    files w' !! ["work"; "src"; "server"; "http.ts"] = Some (File (text "listen()")) ∧
    files w' !! ["work"; "src"; "lib"; "mine.ts"] = Some (File (text "my own")) ∧
    files w' !! ["work"; "src"; "node_modules"; "dep.js"] = None.
Proof.
  destruct (copyFiles_overwrites ["pkg"; "src"] ["work"; "src"] (boot sample_stale) 5)
    as [w' [Hrun [Hcopy [Hkeep _]]]].
  - apply well_formed_checked. vm_compute. reflexivity.
  - vm_compute. reflexivity.
  - split; intros [k Hk]; simpl in Hk; discriminate Hk.
  - intros q data [k Hk] H. destruct q as [|a [|b [|c q]]].
    + vm_compute in H. discriminate H.
    + injection Hk as <- _. vm_compute in H. discriminate H.
    + injection Hk as <- <- _. vm_compute in H. discriminate H.
    + discriminate Hk.
  - apply fits_checked. vm_compute. reflexivity.
  - vm_compute. lia.
  - exists w'. split; [exact Hrun|]. split; [|split; [|split]].
    + etransitivity; [apply (Hcopy ["index.ts"]); [reflexivity|vm_compute; eauto]|].
      vm_compute. reflexivity.
    + etransitivity; [apply (Hcopy ["server"; "http.ts"]); [reflexivity|vm_compute; eauto]|].
      vm_compute. reflexivity.
    + etransitivity; [apply (Hkeep ["lib"; "mine.ts"]); right; vm_compute; reflexivity|].
      vm_compute. reflexivity.
    + etransitivity; [apply (Hkeep ["node_modules"; "dep.js"]); left; reflexivity|].
      vm_compute. reflexivity.
Defined.

Lemma compatible_refl (x : option node) : compatible x x.
Proof. destruct x as [[?|]|]; exact I. Qed.

(** X5. Running [copyFiles] a second time with the same source and
    destination changes nothing: under the conditions of a first run into
    an absent, empty or compatible destination, the second run returns
    normally as well and leaves the file system exactly as the first run
    left it. *)
Theorem copyFiles_again (source destination : path) (w : world) (fuel : nat) :
  well_formed (files w) →
  files w !! source = Some Dir →
  apart source destination →
  no_file_above (files w) destination →
  fits (files w) source destination →
  (height (files w) < fuel)%nat →
  ∃ w' w'',
    copyFiles fuel source destination w = (Return tt, w') ∧
    copyFiles fuel source destination w' = (Return tt, w'') ∧
    files w'' = files w'.
Proof.
  intros Hwf Hsrc Hapart Habove Hfit Hfuel.
  destruct (copyFiles_over fuel source destination w)
    as [w' [Hrun [Hcopy [Hdirs [Hframe _]]]]]; try assumption.
  { now apply creatable_of_well_formed. }
  { now apply well_formed_tree_at. }
  { now apply shallow_height. }
  assert (Hsame : ∀ r : path, files w' !! (source ++ r) = files w !! (source ++ r)).
  { intros r. apply Hframe.
    - rewrite <- (app_nil_r destination). now apply apart_not_prefix.
    - intros r' _. now apply apart_neq. }
  assert (Hreach : ∀ r : path, reached (files w') source r ↔ reached (files w) source r).
  { intros r. unfold reached. now rewrite Hsame. }
  destruct (copyFiles_over fuel source destination w')
    as [w'' [Hrun' [Hcopy' [Hdirs' [Hframe' _]]]]].
  - rewrite <- (app_nil_r source), Hsame, app_nil_r. assumption.
  - assumption.
  - now right.
  - intros r Hr. rewrite Hsame.
    destruct (files w !! (source ++ r)) as [x|] eqn:Hx; [|exact I].
    rewrite Hcopy, Hx; [apply compatible_refl|]. split; [assumption|]. rewrite Hx. eauto.
  - apply (tree_at_agree (files w)); [assumption|]. now apply well_formed_tree_at.
  - apply (shallow_agree (files w)); [assumption|]. now apply shallow_height.
  - exists w', w''. split; [assumption|]. split; [assumption|].
    apply map_eq. intros q.
    destruct (decide (q `prefix_of` destination)) as [Hpre|Hpre].
    { now rewrite Hdirs, Hdirs'. }
    destruct (relative_to destination q) as [r|] eqn:Hrel.
    + apply relative_to_Some in Hrel as ->.
      destruct (retained r) eqn:Hr.
      * destruct (files w !! (source ++ r)) as [x|] eqn:Hx.
        -- assert (Hw : reached (files w) source r) by (split; [assumption|rewrite Hx; eauto]).
           rewrite Hcopy' by now apply Hreach.
           rewrite Hcopy by assumption. apply Hsame.
        -- apply Hframe'; [assumption|]. intros r' Hr' H.
           apply app_inv_head in H. subst r'. apply Hreach in Hr' as [_ Hs].
           rewrite Hx in Hs. now destruct Hs.
      * apply Hframe'; [assumption|]. intros r' [Hr' _] H.
        apply app_inv_head in H. congruence.
    + apply Hframe'; [assumption|]. intros r' _ ->.
      now rewrite relative_to_app in Hrel.
Qed.

Lemma copyFiles_again_witness :
  ∃ w' w'',
    copyFiles 5 ["pkg"; "src"] ["work"; "src"] (boot sample_stale) = (Return tt, w') ∧
    copyFiles 5 ["pkg"; "src"] ["work"; "src"] w' = (Return tt, w'') ∧
    files w'' = files w'.
Proof.
  apply (copyFiles_again ["pkg"; "src"] ["work"; "src"] (boot sample_stale) 5).
  - apply well_formed_checked. vm_compute. reflexivity.
  - vm_compute. reflexivity.
  - split; intros [k Hk]; simpl in Hk; discriminate Hk.
  - intros q data [k Hk] H. destruct q as [|a [|b [|c q]]].
    + vm_compute in H. discriminate H.
    + injection Hk as <- _. vm_compute in H. discriminate H.
    + injection Hk as <- <- _. vm_compute in H. discriminate H.
    + discriminate Hk.
  - apply fits_checked. vm_compute. reflexivity.
  - vm_compute. lia.
Defined.

(** X6. [copyFiles] prints one line per file it copies and nothing else:
    what a successful run adds to the trace is a list of lines
    [📄 Created <destination path>], one for each regular file of the
    source tree whose relative path has no excluded component, each path
    once; directories and excluded entries get no line. *)
Theorem copyFiles_notifies (source destination : path) (w : world) (fuel : nat) :
  well_formed (files w) →
  files w !! source = Some Dir →
  apart source destination →
  no_file_above (files w) destination →
  fits (files w) source destination →
  (height (files w) < fuel)%nat →
  ∃ (w' : world) (rs : list path),
    copyFiles fuel source destination w = (Return tt, w') ∧
    trace w' = trace w ++ map (created destination) rs ∧
    NoDup rs ∧
    ∀ r : path, r ∈ rs ↔
      retained r = true ∧ ∃ data, files w !! (source ++ r) = Some (File data).
Proof.
  intros Hwf Hsrc Hapart Habove Hfit Hfuel.
  destruct (copyFiles_over fuel source destination w)
    as [w' [Hrun [_ [_ [_ [rs [Htrace [Hnd Hrs]]]]]]]]; try assumption.
  { now apply creatable_of_well_formed. }
  { now apply well_formed_tree_at. }
  { now apply shallow_height. }
  exists w', rs. auto.
Qed.

Lemma copyFiles_notifies_witness :
  ∃ (w' : world) (rs : list path),
    copyFiles 5 ["pkg"; "src"] ["work"; "src"] (boot sample_stale) = (Return tt, w') ∧
    trace w' = trace (boot sample_stale) ++ map (created ["work"; "src"]) rs ∧
    NoDup rs ∧
    ∀ r : path, r ∈ rs ↔
      retained r = true ∧
      ∃ data, files (boot sample_stale) !! (["pkg"; "src"] ++ r) = Some (File data).
Proof.
  apply (copyFiles_notifies ["pkg"; "src"] ["work"; "src"] (boot sample_stale) 5).
  - apply well_formed_checked. vm_compute. reflexivity.
  - vm_compute. reflexivity.
  - split; intros [k Hk]; simpl in Hk; discriminate Hk.
  - intros q data [k Hk] H. destruct q as [|a [|b [|c q]]].
    + vm_compute in H. discriminate H.
    + injection Hk as <- _. vm_compute in H. discriminate H.
    + injection Hk as <- <- _. vm_compute in H. discriminate H.
    + discriminate Hk.
  - apply fits_checked. vm_compute. reflexivity.
  - vm_compute. lia.
Defined.

(** ** When the source is not a directory *)

(** X7. [copyFiles] creates the destination before it reads the source:
    when the source is missing or is a regular file, it throws, but the
    destination directory and the directories above it have been created
    by then; nothing else has changed. *)
Theorem copyFiles_bad_source (source destination : path) (w : world) (fuel : nat) :
  files w !! source ≠ Some Dir →
  ¬ source `prefix_of` destination →
  creatable (files w) destination →
  ∃ (e : error) (w' : world),
    copyFiles (S fuel) source destination w = (Throw e, w') ∧
    trace w' = trace w ∧
    (∀ q : path, q `prefix_of` destination → files w' !! q = Some Dir) ∧
    (∀ q : path, ¬ q `prefix_of` destination → files w' !! q = files w !! q).
Proof.
  intros Hsrc Hpre Hcre. rewrite copyFiles_unfold.
  destruct (ensure_destination destination w Hcre) as [fs0 [-> [Hdirs Hframe]]].
  unfold readdirSync_withFileTypes, get_files. rewrite !bind_run. cbn [files].
  rewrite (Hframe source Hpre).
  destruct (files w !! source) as [[data|]|]; [|contradiction|];
    do 2 eexists; (split; [reflexivity|]); cbn [files trace]; auto.
Qed.

Lemma copyFiles_bad_source_witness :
  ∃ (e : error) (w' : world),
    copyFiles 3 ["pkg"; "README.md"] ["work"; "out"; "deep"] (boot sample0) = (Throw e, w') ∧
    files w' !! ["work"; "out"; "deep"] = Some Dir ∧
    files w' !! ["work"; "out"] = Some Dir.
Proof.
  destruct (copyFiles_bad_source ["pkg"; "README.md"] ["work"; "out"; "deep"]
              (boot sample0) 2) as [e [w' [Hrun [_ [Hdirs _]]]]].
  - vm_compute. discriminate.
  - intros [k Hk]. simpl in Hk. discriminate Hk.
  - left. split; [vm_compute; reflexivity|].
    intros q data [k Hk] H. destruct q as [|a [|b [|c [|d q]]]].
    + vm_compute in H. discriminate H.
    + injection Hk as <- _. vm_compute in H. discriminate H.
    + injection Hk as <- <- _. vm_compute in H. discriminate H.
    + injection Hk as <- <- <- _. vm_compute in H. discriminate H.
    + discriminate Hk.
  - exists e, w'. split; [exact Hrun|]. split; apply Hdirs.
    + reflexivity.
    + now exists ["deep"].
Defined.

(** ** The scaffolding, end to end *)

Lemma well_formed_below_absent (fs : filesystem) (p r : path) :
  well_formed fs → fs !! p = None → fs !! (p ++ r) = None.
Proof.
  intros Hwf Hp. destruct (fs !! (p ++ r)) as [x|] eqn:Hx; [|reflexivity].
  destruct r as [|c r]; [rewrite app_nil_r in Hx; congruence|].
  assert (H : fs !! p = Some Dir).
  { apply (well_formed_above fs (p ++ c :: r)); eauto.
    - now apply prefix_app_r.
    - intros H. rewrite <- (app_nil_r p) in H at 1. apply app_inv_head in H.
      discriminate. }
  congruence.
Qed.

Lemma well_formed_prefix_dir (fs : filesystem) (p q : path) :
  well_formed fs → fs !! p = Some Dir → q `prefix_of` p → fs !! q = Some Dir.
Proof.
  intros Hwf Hp Hq. destruct (decide (q = p)) as [->|Hne]; [assumption|].
  apply (well_formed_above fs p); eauto.
Qed.

Lemma copy_auxiliary_run (rootDir targetDir : path) (f : string) (w : world) :
  files w !! (rootDir ++ [f]) ≠ Some Dir →
  files w !! targetDir = Some Dir →
  files w !! (targetDir ++ [f]) = None →
  ∃ evs,
    copy_auxiliary rootDir targetDir f w
    = (Return tt,
       {| files := match files w !! (rootDir ++ [f]) with
                   | Some (File d) => <[targetDir ++ [f] := File d]> (files w)
                   | _ => files w
                   end;
          trace := trace w ++ evs |}) ∧
    Forall no_spawn evs.
Proof.
  intros Hsrc Hdir Hdst. unfold copy_auxiliary, path_join, existsSync, get_files.
  rewrite !bind_run. cbn [ret].
  destruct (files w !! (rootDir ++ [f])) as [[d|]|] eqn:Hf; [|contradiction|].
  - rewrite bool_decide_true by eauto. cbn [when].
    unfold copyFileSync, get_files. rewrite !bind_run. cbn [ret]. rewrite Hf.
    rewrite write_file_run.
    + eexists. split; [reflexivity|]. repeat constructor.
    + unfold dirname. now rewrite removelast_last.
    + now left.
  - rewrite bool_decide_false by (intros [? ?]; discriminate). cbn [when ret].
    exists []. split; [|constructor]. rewrite app_nil_r. now destruct w.
Qed.

Lemma copy_auxiliary_throws (rootDir targetDir : path) (f : string) (w : world) :
  files w !! (rootDir ++ [f]) = Some Dir →
  ∃ e, copy_auxiliary rootDir targetDir f w = (Throw e, w).
Proof.
  intros Hsrc. unfold copy_auxiliary, path_join, existsSync, get_files.
  rewrite !bind_run. cbn [ret]. rewrite Hsrc.
  rewrite bool_decide_true by eauto. cbn [when].
  unfold copyFileSync, get_files. rewrite !bind_run. cbn [ret]. rewrite Hsrc.
  eexists. reflexivity.
Qed.

Lemma scaffold_unfold (rootDir targetDir : path) (answer : string) (depth : nat) :
  scaffold rootDir targetDir answer depth =
  (let defaultName := basename targetDir in
   serverName <- promptUser answer ("📝 Enter a name for your MCP server [" +:+ defaultName +:+ "]: ") ;;
   let serverName := js_or (trim serverName) defaultName in
   copyFiles depth (sourceDir rootDir) (path_join targetDir "src") ;;
   (copy_auxiliary rootDir targetDir ".gitignore" ;;
    copy_auxiliary rootDir targetDir "tsconfig.json" ;;
    ret tt) ;;
   createProjectPackageJson targetDir serverName ;;
   createCustomReadme targetDir serverName ;;
   printColorMessage "✅ Source files copied successfully!" green ;;
   ret serverName).
Proof. reflexivity. Qed.

Lemma lookup_put_ne (o : option node) (p q : path) (fs : filesystem) :
  q ≠ p → put o p fs !! q = fs !! q.
Proof.
  intros Hne. unfold put. destruct o as [[d|]|]; try reflexivity.
  now apply lookup_insert_ne.
Qed.

Lemma lookup_put_eq (o : option node) (p : path) (fs : filesystem) :
  o ≠ Some Dir → fs !! p = None → put o p fs !! p = o.
Proof.
  intros Ho Hp. unfold put. destruct o as [[d|]|]; try congruence.
  apply lookup_insert_eq.
Qed.

Lemma snoc_neq (p q : path) (a b : string) : a ≠ b → p ++ [a] ≠ q ++ [b].
Proof. intros Hne H. apply app_inj_tail in H as [_ H]. contradiction. Qed.

Lemma snoc_neq_self (p : path) (a : string) : p ≠ p ++ [a].
Proof.
  intros H. apply (f_equal length) in H. rewrite length_app in H. simpl in H. lia.
Qed.

Section Scaffolding.

Variables rootDir targetDir : path.
Variable fs : filesystem.
Hypothesis sound : well_formed fs.
Hypothesis target_dir : fs !! targetDir = Some Dir.
Hypothesis target_safe :
  ∀ n : string, is_Some (fs !! (targetDir ++ [n])) → n = ".git".
Hypothesis source_dir : fs !! sourceDir rootDir = Some Dir.
Hypothesis separate : apart (sourceDir rootDir) (targetDir ++ ["src"]).

Lemma target_below_absent (n : string) (r : path) :
  n ≠ ".git" → fs !! (targetDir ++ n :: r) = None.
Proof.
  intros Hn. rewrite <- snoc_app. apply well_formed_below_absent; [assumption|].
  destruct (fs !! (targetDir ++ [n])) as [x|] eqn:Hx; [|reflexivity].
  destruct Hn. apply target_safe. eauto.
Qed.

Lemma package_not_below (f : string) (r : path) :
  f ≠ "src" → rootDir ++ [f] ≠ targetDir ++ "src" :: r.
Proof.
  intros Hf Heq. destruct r as [|c r] using rev_ind.
  - now apply snoc_neq in Heq.
  - change (rootDir ++ [f] = targetDir ++ ("src" :: r) ++ [c]) in Heq.
    rewrite app_assoc in Heq. apply app_inj_tail in Heq as [Hroot _].
    unfold sourceDir, path_join in source_dir.
    rewrite Hroot, <- app_assoc in source_dir. simpl in source_dir.
    rewrite target_below_absent in source_dir; discriminate.
Qed.

(** The first two steps of the scaffolding: the prompt and the copy of
    the package's [src]. *)
Lemma copy_phase (depth : nat) (w : world) :
  files w = fs → (height fs < depth)%nat →
  ∃ w', copyFiles depth (sourceDir rootDir) (path_join targetDir "src") w = (Return tt, w') ∧
    (∀ r : path,
       files w' !! (targetDir ++ "src" :: r)
       = if retained r then fs !! (rootDir ++ "src" :: r) else None) ∧
    (∀ q : path, q `prefix_of` targetDir → files w' !! q = Some Dir) ∧
    (∀ q : path, (∀ r : path, q ≠ targetDir ++ "src" :: r) → files w' !! q = fs !! q).
Proof.
  intros Hfs Hfuel. unfold path_join.
  assert (Habsent : ∀ r : path, fs !! ((targetDir ++ ["src"]) ++ r) = None).
  { intros r. rewrite snoc_app. now apply target_below_absent. }
  destruct (copyFiles_over depth (sourceDir rootDir) (targetDir ++ ["src"]) w)
    as [w' [Hrun [Hcopy [Hdirs [Hframe _]]]]]; rewrite ?Hfs; try assumption.
  - left. split; [now rewrite <- (app_nil_r (targetDir ++ ["src"])), Habsent|].
    intros q data Hq. destruct (prefix_snoc _ _ _ Hq) as [Hp| ->].
    + now rewrite (well_formed_prefix_dir fs targetDir q).
    + now rewrite <- (app_nil_r (targetDir ++ ["src"])), Habsent.
  - intros r _. rewrite Habsent. now destruct (fs !! (sourceDir rootDir ++ r)) as [[?|]|].
  - now apply well_formed_tree_at.
  - now apply shallow_height.
  - rewrite Hfs in *. exists w'. split; [assumption|]. split; [|split].
    + intros r. rewrite <- (snoc_app targetDir), <- (snoc_app rootDir).
      fold (path_join rootDir "src").
      fold (sourceDir rootDir).
      destruct (retained r) eqn:Hr.
      * destruct (fs !! (sourceDir rootDir ++ r)) as [x|] eqn:Hx.
        -- rewrite Hcopy, Hx; [reflexivity|]. split; [assumption|]. rewrite Hx. eauto.
        -- destruct r as [|c r]; [rewrite app_nil_r in Hx; congruence|].
           rewrite Hframe, Habsent; [reflexivity|apply below_not_prefix|].
           intros r' [_ Hs] H. apply app_inv_head in H. subst r'.
           rewrite Hx in Hs. now destruct Hs.
      * destruct r as [|c r]; [discriminate|].
        rewrite Hframe, Habsent; [reflexivity|apply below_not_prefix|].
        intros r' [Hr' _] H. apply app_inv_head in H. congruence.
    + intros q Hq. apply Hdirs. now apply prefix_app_r.
    + intros q Hq.
      destruct (decide (q `prefix_of` targetDir ++ ["src"])) as [Hpre|Hpre].
      * destruct (prefix_snoc _ _ _ Hpre) as [Hp| ->].
        -- rewrite (Hdirs q Hpre). symmetry.
           now apply (well_formed_prefix_dir fs targetDir).
        -- now destruct (Hq []).
      * apply Hframe; [assumption|]. intros r _ ->. apply (Hq r). apply snoc_app.
Qed.

(** When an auxiliary file of the package is a directory, the scaffolding
    throws after the copy of [src]: the mirror is in place by then, and the
    manifest and the document are not written. *)
Lemma scaffold_stops (answer : string) (depth : nat) (w : world) (f : string) :
  files w = fs → (height fs < depth)%nat →
  f ∈ filesToCopy → fs !! (rootDir ++ [f]) = Some Dir →
  ∃ e w', scaffold rootDir targetDir answer depth w = (Throw e, w') ∧
    (∀ r : path,
       files w' !! (targetDir ++ "src" :: r)
       = if retained r then fs !! (rootDir ++ "src" :: r) else None) ∧
    files w' !! (targetDir ++ ["package.json"]) = None ∧
    files w' !! (targetDir ++ ["README.md"]) = None.
Proof.
  intros Hfs Hfuel Hf Hisdir. rewrite scaffold_unfold. cbv zeta.
  erewrite bind_return; [|reflexivity].
  match goal with |- context [bind _ _ ?w0] =>
    destruct (copy_phase depth w0) as [wb [Hrun [Hsrc [Hdirs Hrest]]]];
      [exact Hfs|exact Hfuel|]
  end.
  erewrite bind_return; [|exact Hrun].
  assert (Htop : ∀ f : string, f ≠ "src" → ∀ r : path, targetDir ++ [f] ≠ targetDir ++ "src" :: r).
  { intros f' Hf' r H. apply app_inv_head in H. congruence. }
  assert (Hfree : ∀ n : string, n ≠ ".git" → fs !! (targetDir ++ [n]) = None).
  { intros n Hn. now apply (target_below_absent n []). }
  assert (Hpkg : ∀ f : string, f ≠ "src" →
            files wb !! (rootDir ++ [f]) = fs !! (rootDir ++ [f])).
  { intros f' Hf'. apply Hrest. intros r. now apply package_not_below. }
  assert (Hfirst : fs !! (rootDir ++ [".gitignore"]) = Some Dir →
    ∃ e w', (copy_auxiliary rootDir targetDir ".gitignore" ;;
             copy_auxiliary rootDir targetDir "tsconfig.json" ;; ret tt) wb = (Throw e, w') ∧
      files w' = files wb).
  { intros Hd. destruct (copy_auxiliary_throws rootDir targetDir ".gitignore" wb) as [e He].
    { now rewrite Hpkg. }
    exists e, wb. split; [|reflexivity]. now rewrite bind_run, He. }
  assert (Hblock : ∃ e w',
    (copy_auxiliary rootDir targetDir ".gitignore" ;;
     copy_auxiliary rootDir targetDir "tsconfig.json" ;; ret tt) wb = (Throw e, w') ∧
    (∀ q : path, q ≠ targetDir ++ [".gitignore"] → files w' !! q = files wb !! q)).
  { assert (Hcase : fs !! (rootDir ++ [".gitignore"]) = Some Dir ∨
                    fs !! (rootDir ++ [".gitignore"]) ≠ Some Dir).
    { destruct (fs !! (rootDir ++ [".gitignore"])) as [[d|]|];
        [right; discriminate|left; reflexivity|right; discriminate]. }
    destruct Hcase as [Hd|Hnd].
    { destruct (Hfirst Hd) as [e [w' [He Hw]]]. exists e, w'. split; [exact He|].
      intros q _. now rewrite Hw. }
    apply elem_of_cons in Hf as [->|Hf]; [contradiction|].
    apply elem_of_cons in Hf as [->|Hf]; [|now apply elem_of_nil in Hf].
    destruct (copy_auxiliary_run rootDir targetDir ".gitignore" wb) as [evs [Haux _]].
    { now rewrite Hpkg. }
    { now apply Hdirs. }
    { rewrite Hrest; [|now apply Htop]. now apply Hfree. }
    change (match ?o with Some (File d) => <[?p := File d]> ?m | _ => ?m end)
      with (put o p m) in Haux.
    match type of Haux with _ = (_, ?wc0) => set (wc := wc0) in * end.
    destruct (copy_auxiliary_throws rootDir targetDir "tsconfig.json" wc) as [e He].
    { cbn [wc files]. rewrite lookup_put_ne by (now apply snoc_neq). now rewrite Hpkg. }
    exists e, wc. split.
    - rewrite bind_run, Haux, bind_run, He. reflexivity.
    - intros q Hq. cbn [wc files]. now apply lookup_put_ne. }
  destruct Hblock as [e [w' [Hthrow Hsame]]].
  exists e, w'. split; [now rewrite bind_run, Hthrow|].
  split; [|split].
  - intros r. rewrite Hsame by (intros H; apply app_inv_head in H; discriminate).
    apply Hsrc.
  - rewrite Hsame by (now apply snoc_neq). rewrite Hrest; [|now apply Htop].
    now apply Hfree.
  - rewrite Hsame by (now apply snoc_neq). rewrite Hrest; [|now apply Htop].
    now apply Hfree.
Qed.

Hypothesis auxiliary_files :
  ∀ f : string, f ∈ filesToCopy → fs !! (rootDir ++ [f]) ≠ Some Dir.

(** The scaffolding on a safe working directory: it returns the resolved
    name and leaves the working directory [scaffolded]. *)
Lemma scaffold_run (answer : string) (depth : nat) (w : world) :
  files w = fs → (height fs < depth)%nat →
  ∃ w', scaffold rootDir targetDir answer depth w
        = (Return (js_or (trim answer) (basename targetDir)), w') ∧
    scaffolded fs (files w') rootDir targetDir (js_or (trim answer) (basename targetDir)).
Proof.
  intros Hfs Hfuel. rewrite scaffold_unfold. cbv zeta.
  set (serverName := js_or (trim answer) (basename targetDir)).
  erewrite bind_return; [|reflexivity].
  match goal with |- context [copyFiles _ _ _ ;; ?k] =>
    match goal with |- context [bind _ _ ?w0] =>
      destruct (copy_phase depth w0) as [wb [Hrun [Hsrc [Hdirs Hrest]]]];
        [exact Hfs|exact Hfuel|]
    end
  end.
  erewrite bind_return; [|exact Hrun].
  assert (Hgi : ".gitignore" ∈ filesToCopy) by (left).
  assert (Hts : "tsconfig.json" ∈ filesToCopy) by (right; left).
  assert (Htop : ∀ f : string, f ≠ "src" → ∀ r : path, targetDir ++ [f] ≠ targetDir ++ "src" :: r).
  { intros f Hf r H. apply app_inv_head in H. congruence. }
  assert (Hfree : ∀ n : string, n ≠ ".git" → fs !! (targetDir ++ [n]) = None).
  { intros n Hn. now apply (target_below_absent n []). }
  assert (Hpkg : ∀ f : string, f ≠ "src" →
            ∀ r : path, rootDir ++ [f] ≠ targetDir ++ "src" :: r).
  { intros f Hf r. now apply package_not_below. }
  (* the two auxiliary files *)
  destruct (copy_auxiliary_run rootDir targetDir ".gitignore" wb) as [evs1 Haux1].
  { rewrite Hrest; [now apply auxiliary_files|]. apply Hpkg; discriminate. }
  { now apply Hdirs. }
  { rewrite Hrest; [|now apply Htop]. now apply Hfree. }
  destruct Haux1 as [Haux1 _].
  rewrite (Hrest (rootDir ++ [".gitignore"])) in Haux1
    by (apply Hpkg; discriminate).
  change (match ?o with Some (File d) => <[?p := File d]> ?m | _ => ?m end)
    with (put o p m) in Haux1.
  set (fc := put (fs !! (rootDir ++ [".gitignore"])) (targetDir ++ [".gitignore"]) (files wb)) in *.
  match type of Haux1 with _ = (_, ?wc0) => set (wc := wc0) in * end.
  destruct (copy_auxiliary_run rootDir targetDir "tsconfig.json" wc) as [evs2 Haux2].
  { cbn [wc files]. unfold fc. rewrite lookup_put_ne by (now apply snoc_neq).
    rewrite Hrest; [now apply auxiliary_files|]. apply Hpkg; discriminate. }
  { cbn [wc files]. unfold fc. rewrite lookup_put_ne by apply snoc_neq_self. now apply Hdirs. }
  { cbn [wc files]. unfold fc. rewrite lookup_put_ne by (now apply snoc_neq).
    rewrite Hrest; [|now apply Htop]. now apply Hfree. }
  destruct Haux2 as [Haux2 _].
  assert (Hc : files wc !! (rootDir ++ ["tsconfig.json"]) = fs !! (rootDir ++ ["tsconfig.json"])).
  { cbn [wc files]. unfold fc. rewrite lookup_put_ne by (now apply snoc_neq).
    apply Hrest. apply Hpkg; discriminate. }
  rewrite Hc in Haux2.
  change (match ?o with Some (File d) => <[?p := File d]> ?m | _ => ?m end)
    with (put o p m) in Haux2.
  cbn [wc files] in Haux2.
  set (fd := put (fs !! (rootDir ++ ["tsconfig.json"])) (targetDir ++ ["tsconfig.json"]) fc) in *.
  match type of Haux2 with _ = (_, ?wd0) => set (wd := wd0) in * end.
  erewrite bind_return; cycle 1.
  { erewrite bind_return; [|exact Haux1]. erewrite bind_return; [|exact Haux2]. reflexivity. }
  assert (Hd : ∀ q : path, q ≠ targetDir ++ [".gitignore"] → q ≠ targetDir ++ ["tsconfig.json"] →
            fd !! q = files wb !! q).
  { intros q H1 H2. unfold fd, fc. now rewrite !lookup_put_ne. }
  (* the manifest *)
  unfold createProjectPackageJson, createCustomReadme, writeFileSync, path_join.
  erewrite bind_return; cycle 1.
  { erewrite bind_return; [reflexivity|]. apply write_file_run; cbn [wd files].
    - change (dirname (targetDir ++ ["package.json"])) with (dirname (targetDir ++ ["package.json"])).
      replace (dirname (targetDir ++ ["package.json"])) with targetDir; cycle 1.
      { clear. induction targetDir as [|c p IH]; [reflexivity|].
        simpl. destruct (p ++ ["package.json"]) eqn:E; [now destruct p|]. now rewrite <- IH. }
      rewrite Hd by apply snoc_neq_self. now apply Hdirs.
    - left. rewrite Hd by (now apply snoc_neq). rewrite Hrest; [|now apply Htop].
      now apply Hfree. }
  cbn [console_log emit files trace].
  erewrite bind_return; cycle 1.
  { erewrite bind_return; [reflexivity|]. apply write_file_run; cbn [files].
    - replace (dirname (targetDir ++ ["README.md"])) with targetDir; cycle 1.
      { clear. induction targetDir as [|c p IH]; [reflexivity|].
        simpl. destruct (p ++ ["README.md"]) eqn:E; [now destruct p|]. now rewrite <- IH. }
      rewrite lookup_insert_ne by (symmetry; apply snoc_neq_self).
      cbn [wd files]. rewrite Hd by apply snoc_neq_self. now apply Hdirs.
    - left. rewrite lookup_insert_ne by (now apply snoc_neq).
      cbn [wd files]. rewrite Hd by (now apply snoc_neq). rewrite Hrest; [|now apply Htop].
      now apply Hfree. }
  cbn [console_log emit files trace].
  erewrite bind_return; [|reflexivity].
  eexists. split; [reflexivity|]. cbn [files wd].
  repeat split.
  - intros r. rewrite !lookup_insert_ne by (intros H; apply app_inv_head in H; discriminate).
    rewrite Hd by (intros H; apply app_inv_head in H; discriminate). apply Hsrc.
  - intros f Hf. apply elem_of_cons in Hf as [->|Hf];
      [|apply elem_of_cons in Hf as [->|Hf]; [|now apply elem_of_nil in Hf]].
    + rewrite !lookup_insert_ne by (now apply snoc_neq). unfold fd.
      rewrite lookup_put_ne by (now apply snoc_neq). unfold fc.
      apply lookup_put_eq; [now apply auxiliary_files|].
      rewrite Hrest; [|now apply Htop]. now apply Hfree.
    + rewrite !lookup_insert_ne by (now apply snoc_neq). unfold fd.
      apply lookup_put_eq; [now apply auxiliary_files|]. unfold fc.
      rewrite lookup_put_ne by (now apply snoc_neq).
      rewrite Hrest; [|now apply Htop]. now apply Hfree.
  - rewrite lookup_insert_ne by (now apply snoc_neq). apply lookup_insert_eq.
  - apply lookup_insert_eq.
  - intros q Hq Htopq.
    rewrite !lookup_insert_ne.
    + rewrite Hd. * now apply Hrest. * apply Htopq. left. * apply Htopq. right; left.
    + apply not_eq_sym, Htopq. right; right; left.
    + apply not_eq_sym, Htopq. right; right; right; left.
Qed.

End Scaffolding.

(** X8. The run on a safe working directory, end to end. Given a
    well-formed file system in which the working directory exists and holds
    at most an entry named [.git], the package's [src] is a directory that
    neither contains the working directory's [src] nor lies inside it, no
    auxiliary file of the package is a directory, and enough fuel: the
    script returns normally, and the file system it hands to the install
    and build commands holds, under the working directory, the mirror of
    the package's [src] without excluded names, the auxiliary files the
    package has, the generated manifest and the generated document, and is
    otherwise the one the run started from; what the run ends with is what
    those commands make of it. *)
Theorem script_scaffolds (rootDir targetDir : path) (answer : string)
    (subprocess : string → filesystem → filesystem * bool) (depth : nat)
    (fs : filesystem) :
  well_formed fs →
  fs !! targetDir = Some Dir →
  (∀ n : string, is_Some (fs !! (targetDir ++ [n])) → n = ".git") →
  fs !! sourceDir rootDir = Some Dir →
  apart (sourceDir rootDir) (targetDir ++ ["src"]) →
  (∀ f : string, f ∈ filesToCopy → fs !! (rootDir ++ [f]) ≠ Some Dir) →
  (height fs < depth)%nat →
  ∃ ws w',
    script rootDir targetDir answer subprocess depth (boot fs) = (Return tt, w') ∧
    scaffolded fs (files ws) rootDir targetDir (js_or (trim answer) (basename targetDir)) ∧
    files w' = files (installAndBuild targetDir subprocess ws).2.
Proof.
  intros Hwf Hdir Hsafe Hsrc Hapart Haux Hfuel.
  rewrite script_run.
  rewrite prelude_passes; [|assumption|assumption|cbn [boot files]; rewrite Hsrc; eauto].
  destruct (scaffold_run rootDir targetDir fs Hwf Hdir Hsafe Hsrc Hapart Haux answer depth
              {| files := files (boot fs); trace := trace (boot fs) ++ banner |})
    as [ws [Hrun Hdone]]; [reflexivity|assumption|].
  rewrite Hrun. exists ws. eexists. split; [reflexivity|]. split; [assumption|].
  destruct (epilogue_run targetDir (js_or (trim answer) (basename targetDir))
              (installAndBuild targetDir subprocess ws).2) as [evs [-> _]].
  reflexivity.
Qed.

Lemma script_scaffolds_witness :
  ∃ ws w',
    script ["pkg"] ["work"] "  demo " quiet 4 (boot sample0) = (Return tt, w') ∧
    scaffolded sample0 (files ws) ["pkg"] ["work"] "demo" ∧
    files w' = files (installAndBuild ["work"] quiet ws).2.
Proof.
  apply (script_scaffolds ["pkg"] ["work"] "  demo " quiet 4 sample0).
  - apply well_formed_checked. vm_compute. reflexivity.
  - vm_compute. reflexivity.
  - intros n [x Hx].
    rewrite (empty_below_checked sample0 ["work"]) in Hx; [discriminate Hx|].
    vm_compute. reflexivity.
  - vm_compute. reflexivity.
  - split; intros [k Hk]; simpl in Hk; discriminate Hk.
  - intros f Hf H.
    apply elem_of_cons in Hf as [->|Hf];
      [|apply elem_of_cons in Hf as [->|Hf]; [|now apply elem_of_nil in Hf]];
      vm_compute in H; discriminate H.
  - vm_compute. lia.
Defined.

(** ** Failures outside and inside the [try] of [main] *)

Lemma bind_throw {A B} (m : M A) (k : A → M B) (w w' : world) (e : error) :
  m w = (Throw e, w') → bind m k w = (Throw e, w').
Proof. intros H. now rewrite bind_run, H. Qed.




(** X10. The guard on the source directory only asks whether it exists.
    When the package's [src] is a regular file, the guards pass and the
    question is asked; [copyFiles] then creates [src] in the working
    directory before it fails to list the source. The run ends with status
    1 and leaves that empty directory behind: the file system is the one
    it started from with the working directory's [src] added. *)
Theorem source_file_leaves_src (rootDir targetDir : path) (answer : string)
    (subprocess : string → filesystem → filesystem * bool) (depth : nat)
    (fs : filesystem) (data : list Byte.byte) :
  well_formed fs →
  fs !! targetDir = Some Dir →
  (∀ n : string, is_Some (fs !! (targetDir ++ [n])) → n = ".git") →
  fs !! sourceDir rootDir = Some (File data) →
  (0 < depth)%nat →
  ∃ w',
    script rootDir targetDir answer subprocess depth (boot fs) = (Exit 1%Z, w') ∧
    files w' = <[targetDir ++ ["src"] := Dir]> fs ∧
    Question ("📝 Enter a name for your MCP server [" +:+ basename targetDir +:+ "]: ")
      ∈ trace w'.
Proof.
  intros Hwf Hdir Hsafe Hsrc Hdepth.
  assert (Habsent : fs !! (targetDir ++ ["src"]) = None).
  { destruct (fs !! (targetDir ++ ["src"])) as [x|] eqn:Hx; [|reflexivity].
    assert (H : "src" = ".git") by (apply Hsafe; rewrite Hx; eauto). discriminate H. }
  rewrite script_run.
  rewrite prelude_passes; [|assumption|assumption|cbn [boot files]; rewrite Hsrc; eauto].
  rewrite scaffold_unfold. cbv zeta.
  erewrite bind_return; [|reflexivity].
  destruct depth as [|fuel]; [lia|].
  match goal with |- context [bind (copyFiles _ _ _) _ ?w0] => set (wa := w0) end.
  assert (Hcopy : ∃ e fs0,
    copyFiles (S fuel) (sourceDir rootDir) (path_join targetDir "src") wa
    = (Throw e, {| files := fs0; trace := trace wa |}) ∧
    (∀ q : path, q `prefix_of` targetDir ++ ["src"] → fs0 !! q = Some Dir) ∧
    (∀ q : path, ¬ q `prefix_of` targetDir ++ ["src"] → fs0 !! q = fs !! q)).
  { rewrite copyFiles_unfold. unfold path_join at 1 2.
    destruct (ensure_destination (targetDir ++ ["src"]) wa) as [fs0 [-> [Hdirs Hframe]]].
    { left. split; [exact Habsent|]. intros q d Hq.
      destruct (prefix_snoc _ _ _ Hq) as [Hp| ->].
      - cbn [wa files boot]. now rewrite (well_formed_prefix_dir fs targetDir q).
      - cbn [wa files boot]. now rewrite Habsent. }
    unfold readdirSync_withFileTypes, get_files. rewrite !bind_run. cbn [files ret].
    rewrite (Hframe (sourceDir rootDir)); cycle 1.
    { intros Hq. destruct (prefix_snoc _ _ _ Hq) as [Hp|Heq].
      - rewrite (well_formed_prefix_dir fs targetDir _ Hwf Hdir Hp) in Hsrc. discriminate.
      - rewrite Heq, Habsent in Hsrc. discriminate. }
    cbn [wa files boot]. rewrite Hsrc. do 2 eexists. split; [reflexivity|].
    split; [exact Hdirs|exact Hframe]. }
  destruct Hcopy as [e [fs0 [Hcopy [Hdirs Hframe]]]].
  erewrite bind_throw; [|exact Hcopy].
  destruct (scaffold_failed_run e {| files := fs0; trace := trace wa |}) as [evs [-> _]].
  eexists. split; [reflexivity|]. cbn [files trace snd]. split.
  - apply map_eq. intros q.
    destruct (decide (q = targetDir ++ ["src"])) as [->|Hne].
    + rewrite lookup_insert_eq. apply Hdirs. reflexivity.
    + rewrite lookup_insert_ne by congruence.
      destruct (decide (q `prefix_of` targetDir ++ ["src"])) as [Hq|Hq].
      * destruct (prefix_snoc _ _ _ Hq) as [Hp|Heq]; [|contradiction].
        rewrite (Hdirs q Hq). symmetry. now apply (well_formed_prefix_dir fs targetDir).
      * now apply Hframe.
  - cbn [wa trace]. rewrite !elem_of_app. left. right. left.
Qed.

Lemma source_file_leaves_src_witness :
  ∃ w',
    script ["pkg"] ["work"] "my-server" quiet 1 (boot sample_flat) = (Exit 1%Z, w') ∧
    files w' = <[ ["work"; "src"] := Dir ]> sample_flat ∧
    Question ("📝 Enter a name for your MCP server [" +:+ basename ["work"] +:+ "]: ")
      ∈ trace w'.
Proof.
  apply (source_file_leaves_src ["pkg"] ["work"] "my-server" quiet 1 sample_flat
           (text "not a directory")).
  - apply well_formed_checked. vm_compute. reflexivity.
  - vm_compute. reflexivity.
  - intros n [x Hx].
    rewrite (empty_below_checked sample_flat ["work"]) in Hx; [discriminate Hx|].
    vm_compute. reflexivity.
  - vm_compute. reflexivity.
  - lia.
Defined.

(** X11. Nothing is rolled back when the scaffolding fails half-way. On a
    safe working directory, with the package's [src] in place, if one of
    the auxiliary files the package is expected to have is a directory,
    [copyFileSync] throws after the copy of [src]: the run ends with status
    1, the mirror of [src] stays in the working directory, and neither the
    manifest nor the document has been written. *)
Theorem failed_scaffolding_stays (rootDir targetDir : path) (answer : string)
    (subprocess : string → filesystem → filesystem * bool) (depth : nat)
    (fs : filesystem) (f : string) :
  well_formed fs →
  fs !! targetDir = Some Dir →
  (∀ n : string, is_Some (fs !! (targetDir ++ [n])) → n = ".git") →
  fs !! sourceDir rootDir = Some Dir →
  apart (sourceDir rootDir) (targetDir ++ ["src"]) →
  f ∈ filesToCopy →
  fs !! (rootDir ++ [f]) = Some Dir →
  (height fs < depth)%nat →
  ∃ w',
    script rootDir targetDir answer subprocess depth (boot fs) = (Exit 1%Z, w') ∧
    (∀ r : path,
       files w' !! (targetDir ++ "src" :: r)
       = if retained r then fs !! (rootDir ++ "src" :: r) else None) ∧
    files w' !! (targetDir ++ ["package.json"]) = None ∧
    files w' !! (targetDir ++ ["README.md"]) = None.
Proof.
  intros Hwf Hdir Hsafe Hsrc Hapart Hf Hisdir Hfuel.
  rewrite script_run.
  rewrite prelude_passes; [|assumption|assumption|cbn [boot files]; rewrite Hsrc; eauto].
  destruct (scaffold_stops rootDir targetDir fs Hwf Hdir Hsafe Hsrc Hapart answer depth
              {| files := files (boot fs); trace := trace (boot fs) ++ banner |} f)
    as [e [ws [Hrun Hleft]]]; [reflexivity|assumption|assumption|assumption|].
  rewrite Hrun. destruct (scaffold_failed_run e ws) as [evs [-> _]].
  eexists. split; [reflexivity|]. exact Hleft.
Qed.

Lemma failed_scaffolding_stays_witness :
  ∃ w',
    script ["pkg"] ["work"] "my-server" quiet 4 (boot sample_odd) = (Exit 1%Z, w') ∧
    (∀ r : path,
       files w' !! (["work"] ++ "src" :: r)
       = if retained r then sample_odd !! (["pkg"] ++ "src" :: r) else None) ∧
    files w' !! (["work"] ++ ["package.json"]) = None ∧
    files w' !! (["work"] ++ ["README.md"]) = None.
Proof.
  apply (failed_scaffolding_stays ["pkg"] ["work"] "my-server" quiet 4 sample_odd
           "tsconfig.json").
  - apply well_formed_checked. vm_compute. reflexivity.
  - vm_compute. reflexivity.
  - intros n [x Hx].
    rewrite (empty_below_checked sample_odd ["work"]) in Hx; [discriminate Hx|].
    vm_compute. reflexivity.
  - vm_compute. reflexivity.
  - split; intros [k Hk]; simpl in Hk; discriminate Hk.
  - right. left.
  - vm_compute. reflexivity.
  - vm_compute. lia.
Defined.

(** ** The prompt interface *)






